(** * tsdiagram: the model graph and the diagram layout orchestration

    A shallow embedding of [src/components/Renderer/Renderer.tsx] (layout
    request construction, application of the layout result, the relayout
    change detection, the topology change detection and the drag handler)
    and of the model graph built by [src/lib/parser/ModelParser], whose
    behaviour is pinned by [ModelParser.test.ts].

    Conventions.
    - A JS [Set<string>] is a [gset string], a JS [Map<string, V>] a
      [gmap string V].
    - Pixel coordinates and sizes are JS numbers; they are only copied,
      compared and tested for truthiness here, so they are embedded as [Z]
      (zero is the falsy number).
    - An optional property ([width?: number | null]) is an [option].
    - The model graph is cyclic in the source (a [Model] holds its
      dependencies and dependants by reference); it is embedded as an arena:
      a model refers to another model by its [id]. *)

From Stdlib Require Import ZArith Ascii.
From stdpp Require Import gmap strings list fin_maps pretty.

Local Open Scope Z_scope.
Local Open Scope string_scope.
Local Open Scope list_scope.

(** ** Data model *)

(** [Model] of [lib/parser/ModelParser]: the type is imported by the
    renderer and its shape is fixed by the tests. *)
Module Model.
(** [Model | string]: a resolved model (by id) or the text of a type. *)
Inductive TypeRef :=
| Literal (text : string)
| Ref (id : string).

(** One schema entry. [Plain] is [{name, type}], [Array] is
    [{name, type: "array", elementType}], [Reference] is
    [{name, type: "reference", referenceName, arguments}]. *)
Inductive Field :=
| Plain (name : string) (type : TypeRef)
| Array (name : string) (elementType : TypeRef)
| Reference (name : string) (referenceName : string) (arguments : list TypeRef).

Definition field_name (f : Field) : string :=
  match f with
  | Plain n _ | Array n _ | Reference n _ _ => n
  end.

Record t := mk {
  id : string;
  name : string;
  schema : list Field;
  dependencies : list string;
  dependants : list string;
}.
End Model.

#[global] Instance TypeRef_eq_dec : EqDecision Model.TypeRef.
Proof. solve_decision. Defined.
#[global] Instance Field_eq_dec : EqDecision Model.Field.
Proof. solve_decision. Defined.
#[global] Instance Model_eq_dec : EqDecision Model.t.
Proof. solve_decision. Defined.

(** [UserOptions] of [stores/user-options], as far as the renderer reads it. *)
Inductive Direction := horizontal | vertical.
Inductive Theme := light | dark.

#[global] Instance Direction_eq_dec : EqDecision Direction.
Proof. solve_decision. Defined.

Record RendererOptions := mkRendererOptions {
  direction : Direction;
  autoFitView : bool;
  theme : Theme;
  enableMinimap : bool;
}.

(** reactflow's [XYPosition], [Node] and [Edge]. *)
Record XYPosition := mkXY { pos_x : Z; pos_y : Z }.

#[global] Instance XYPosition_eq_dec : EqDecision XYPosition.
Proof. solve_decision. Defined.

Module Node.
Record t := mk {
  id : string;
  type : option string;
  data : option Model.t;          (* [data?.model] *)
  position : XYPosition;
  width : option Z;
  height : option Z;
}.
End Node.

#[global] Instance Node_eq_dec : EqDecision Node.t.
Proof. solve_decision. Defined.

Module Edge.
Record t := mk {
  id : string;
  source : string;
  target : string;
  sourceHandle : option string;
  type : option string;           (* from [sharedEdgeProps] *)
}.
End Edge.

(** The layout request handed to elkjs. *)
Module Elk.
Record Port := mkPort {
  port_id : string;
  order : nat;
  properties : list (string * string);
}.

(** One child of the request: the spread node, then the overriding keys. *)
Record Child := mkChild {
  node : Node.t;
  width : Z;
  height : Z;
  ports : option (list Port);
  x : option Z;
  y : option Z;
}.

Record EdgeReq := mkEdgeReq {
  edge : Edge.t;
  sources : list string;
  targets : list string;
}.

Record Graph := mkGraph {
  id : string;
  layoutOptions : list (string * string);
  children : list Child;
  edges : list EdgeReq;
}.

(** What the renderer reads of a node of the computed graph. *)
Record Layouted := mkLayouted {
  l_id : string;
  l_x : option Z;
  l_y : option Z;
  l_width : option Z;
  l_height : option Z;
}.

Record LayoutedGraph := mkLayoutedGraph {
  l_children : option (list Layouted);
}.
End Elk.

(** ** JS helpers *)

(** Truthiness of [number | null | undefined] (no NaN in this embedding). *)
Definition truthy (v : option Z) : bool :=
  match v with
  | Some n => negb (Z.eqb n 0)
  | None => false
  end.

(** [a ?? b] *)
Definition nullish {A} (a : option A) (b : A) : A := default b a.

(** [a ?? b] where [b] may itself be absent. *)
Definition nullish_opt {A} (a b : option A) : option A :=
  match a with
  | Some v => Some v
  | None => b
  end.

(** [a !== b] on optional numbers. *)
Definition strict_neq (a b : option Z) : bool := negb (bool_decide (a = b)).

(** [items.join(sep)] *)
Definition join (sep : string) (items : list string) : string :=
  match items with
  | [] => ""
  | first :: rest => foldl (λ acc item, acc +:+ sep +:+ item) first rest
  end.

(** [Array.prototype.map] with the index argument. *)
Definition mapi {A B} (f : A → nat → B) (l : list A) : list B :=
  imap (λ i a, f a i) l.

(** ** [getLayoutedElements] *)

Definition elkOptions (options : RendererOptions) : list (string * string) :=
  [ ("elk.algorithm", "layered");
    ("elk.direction",
      if decide (direction options = horizontal) then "RIGHT" else "DOWN");
    ("elk.edgeRouting", "ORTHOGONAL");
    ("elk.insideSelfLoops.activate", "false");
    ("elk.interactiveLayout", "true");
    ("elk.layered.crossingMinimization.semiInteractive", "true");
    ("elk.layered.cycleBreaking.strategy", "INTERACTIVE");
    ("elk.layered.layering.strategy", "INTERACTIVE");
    ("elk.layered.nodePlacement.strategy", "INTERACTIVE");
    ("elk.layered.spacing.edgeNodeBetweenLayers", "30");
    ("elk.layered.spacing.nodeNodeBetweenLayers", "30");
    ("elk.spacing.nodeNode", "50");
    ("elk.spacing.componentComponent", "50");
    ("elk.separateConnectedComponents", "false") ].

(** [`${node.id}-${field.name}`] *)
Definition handleId (nodeId fieldName : string) : string :=
  nodeId +:+ "-" +:+ fieldName.

Definition buildPort (n : Node.t) (field : Model.Field) (index : nat) : Elk.Port :=
  {| Elk.port_id := handleId (Node.id n) (Model.field_name field);
     Elk.order := index;
     Elk.properties := [("port.side", "EAST")] |}.

Definition buildChild (manuallyMovedNodesSet : gset string) (n : Node.t) : Elk.Child :=
  let wasManuallyMoved := bool_decide (Node.id n ∈ manuallyMovedNodesSet) in
  {| Elk.node := n;
     Elk.width := nullish (Node.width n) 0;
     Elk.height := nullish (Node.height n) 0;
     Elk.ports := (λ m, mapi (buildPort n) (Model.schema m)) <$> Node.data n;
     Elk.x := if wasManuallyMoved then Some (pos_x (Node.position n)) else None;
     Elk.y := if wasManuallyMoved then Some (pos_y (Node.position n)) else None |}.

Definition buildEdge (e : Edge.t) : Elk.EdgeReq :=
  {| Elk.edge := e;
     Elk.sources := [nullish (Edge.sourceHandle e) (Edge.source e)];
     Elk.targets := [Edge.target e] |}.

Definition buildGraph (nodes : list Node.t) (edges : list Edge.t)
    (options : RendererOptions) (manuallyMovedNodesSet : gset string) : Elk.Graph :=
  {| Elk.id := "root";
     Elk.layoutOptions := elkOptions options;
     Elk.children := buildChild manuallyMovedNodesSet <$> nodes;
     Elk.edges := buildEdge <$> edges |}.

(** [layoutedGraph.children?.find((n) => n.id === node.id)] *)
Definition findLayouted (lg : Elk.LayoutedGraph) (nodeId : string) : option Elk.Layouted :=
  children ← Elk.l_children lg;
  List.find (λ n, bool_decide (Elk.l_id n = nodeId)) children.

(** The callback of the final [nodes.map]. *)
Definition applyLayouted (lg : Elk.LayoutedGraph) (manuallyMovedNodesSet : gset string)
    (n : Node.t) : Node.t :=
  match findLayouted lg (Node.id n) with
  | None => n
  | Some layoutedNode =>
      let hasManuallyMoved := bool_decide (Node.id n ∈ manuallyMovedNodesSet) in
      let adopt := truthy (Elk.l_width layoutedNode) && truthy (Elk.l_height layoutedNode) in
      {| Node.id := Node.id n;
         Node.type := Node.type n;
         Node.data := Node.data n;
         Node.position :=
           {| pos_x := if hasManuallyMoved then pos_x (Node.position n)
                       else nullish (Elk.l_x layoutedNode) (pos_x (Node.position n));
              pos_y := if hasManuallyMoved then pos_y (Node.position n)
                       else nullish (Elk.l_y layoutedNode) (pos_y (Node.position n)) |};
         Node.width := if adopt then Elk.l_width layoutedNode else None;
         Node.height := if adopt then Elk.l_height layoutedNode else None |}
  end.

Record Layout := mkLayout {
  layout_nodes : list Node.t;
  layout_edges : list Edge.t;
}.

(** The part of [getLayoutedElements] after [await elk.layout(graph)].
    [manuallyMovedNodesSet] is the [Set] object of the renderer's ref, shared
    with [handleNodeDragStop]: this part reads it as it is when the promise
    resolves. *)
Definition resumeLayout (nodes : list Node.t) (edges : list Edge.t)
    (manuallyMovedNodesSet : gset string) (layoutedGraph : Elk.LayoutedGraph) : Layout :=
  {| layout_nodes := applyLayouted layoutedGraph manuallyMovedNodesSet <$> nodes;
     layout_edges := edges |}.

Section GetLayoutedElements.
(** [elk.layout]: the layered layout service, a black box. [None] is a
    rejected promise. *)
Variable elk_layout : Elk.Graph → option Elk.LayoutedGraph.

(** [movedAtCall] is the content of the shared set when the request is
    built, [movedAtResume] its content when the layout resolves. *)
Definition getLayoutedElements (nodes : list Node.t) (edges : list Edge.t)
    (options : RendererOptions) (movedAtCall movedAtResume : gset string) : option Layout :=
  layoutedGraph ← elk_layout (buildGraph nodes edges options movedAtCall);
  Some (resumeLayout nodes edges movedAtResume layoutedGraph).
End GetLayoutedElements.

(** ** [extractModelNodes], [extractModelEdges] *)

Definition extractModelNodes (models : list Model.t) : list Node.t :=
  (λ model,
    {| Node.id := Model.id model;
       Node.type := Some "model";
       Node.position := {| pos_x := -1; pos_y := -1 |};
       Node.data := Some model;
       Node.width := None;
       Node.height := None |}) <$> models.

(** [result] and [count] of [extractModelEdges], threaded through the loops. *)
Definition EdgeAcc : Type := list Edge.t * nat.

(** [result.push({... id: `${count++}-...`})] *)
Definition pushEdge (acc : EdgeAcc) (mk : nat → Edge.t) : EdgeAcc :=
  (acc.1 ++ [mk acc.2], S acc.2).

Definition mkEdge (sharedType : option string) (model : Model.t) (fieldName target : string)
    (suffix : string) (count : nat) : Edge.t :=
  {| Edge.id := pretty count +:+ "-" +:+ Model.id model +:+ "-" +:+ fieldName +:+ suffix;
     Edge.source := Model.id model;
     Edge.target := target;
     Edge.sourceHandle := Some (handleId (Model.id model) fieldName);
     Edge.type := sharedType |}.

(** The body of the inner loop, for one field. *)
Definition fieldEdges (sharedType : option string) (model : Model.t)
    (acc : EdgeAcc) (field : Model.Field) : EdgeAcc :=
  (* direct model reference *)
  let acc1 :=
    match field with
    | Model.Plain name (Model.Ref target) =>
        pushEdge acc (mkEdge sharedType model name target "")
    | _ => acc
    end in
  (* array of model references *)
  let acc2 :=
    match field with
    | Model.Array name (Model.Ref target) =>
        pushEdge acc1 (mkEdge sharedType model name target "")
    | _ => acc1
    end in
  (* generics *)
  match field with
  | Model.Reference name _ arguments =>
      foldl (λ a argument,
               match argument with
               | Model.Ref target =>
                   pushEdge a (mkEdge sharedType model name target ("-" +:+ target))
               | Model.Literal _ => a
               end) acc2 arguments
  | _ => acc2
  end.

Definition extractModelEdges (models : list Model.t) (sharedType : option string)
    : list Edge.t :=
  (foldl (λ acc model, foldl (fieldEdges sharedType model) acc (Model.schema model))
         ([], 1%nat) models).1.

(** ** The [Renderer] component

    The refs and states of one mounted instance, the effects and the
    handlers. Scheduling (when React runs an effect, when a frame or a
    promise fires) is left to the environment: every effect and handler
    is an event the instance can take. *)

(** [new Map(items.map((item) => [key(item), item]))]: a later entry
    replaces an earlier one with the same key. *)
Definition mapById {V} (key : V → string) (items : list V) : gmap string V :=
  foldl (λ m item, <[key item := item]> m) ∅ items.

(** A layout whose promise has not settled: what the continuation of
    [getLayoutedElements] closes over. *)
Record Pending := mkPending {
  p_nodes : list Node.t;
  p_edges : list Edge.t;
  p_graph : Elk.Graph;
}.

(** What the instance sends to its collaborators. *)
Inductive Output :=
| RequestAnimationFrame        (* [requestAnimationFrame(handleAutoLayout)] *)
| UpdateNodeInternals (id : string)
| FitView.

#[global] Instance Output_eq_dec : EqDecision Output.
Proof. solve_decision. Defined.

Module Renderer.
Record State := mk {
  nodes : list Node.t;                    (* [useNodesState] *)
  edges : list Edge.t;                    (* [useEdgesState] *)
  models : list Model.t;                  (* [useMemo] over the parser *)
  cachedNodesMap : gmap string Node.t;
  manuallyMovedNodesSet : gset string;
  previousEdges : list Edge.t;
  previousModels : gmap string Model.t;
  options : RendererOptions;
  inFlight : list Pending;
  outputs : list Output;                  (* oldest first *)
}.

Definition initial (options : RendererOptions) : State :=
  {| nodes := []; edges := []; models := [];
     cachedNodesMap := ∅; manuallyMovedNodesSet := ∅;
     previousEdges := []; previousModels := ∅;
     options := options; inFlight := []; outputs := [] |}.
End Renderer.

Import Renderer.

Definition emit (o : list Output) (s : State) : State :=
  {| nodes := nodes s; edges := edges s; models := models s;
     cachedNodesMap := cachedNodesMap s;
     manuallyMovedNodesSet := manuallyMovedNodesSet s;
     previousEdges := previousEdges s; previousModels := previousModels s;
     options := options s; inFlight := inFlight s;
     outputs := outputs s ++ o |}.

Definition setOptions (f : RendererOptions → RendererOptions) (s : State) : State :=
  {| nodes := nodes s; edges := edges s; models := models s;
     cachedNodesMap := cachedNodesMap s;
     manuallyMovedNodesSet := manuallyMovedNodesSet s;
     previousEdges := previousEdges s; previousModels := previousModels s;
     options := f (options s); inFlight := inFlight s;
     outputs := outputs s |}.

(** [setNodes(ns); setEdges(es)] *)
Definition setNodesEdges (ns : list Node.t) (es : list Edge.t) (s : State) : State :=
  {| nodes := ns; edges := es; models := models s;
     cachedNodesMap := cachedNodesMap s;
     manuallyMovedNodesSet := manuallyMovedNodesSet s;
     previousEdges := previousEdges s; previousModels := previousModels s;
     options := options s; inFlight := inFlight s;
     outputs := outputs s |}.

Definition setInFlight (ps : list Pending) (s : State) : State :=
  {| nodes := nodes s; edges := edges s; models := models s;
     cachedNodesMap := cachedNodesMap s;
     manuallyMovedNodesSet := manuallyMovedNodesSet s;
     previousEdges := previousEdges s; previousModels := previousModels s;
     options := options s; inFlight := ps;
     outputs := outputs s |}.

(** *** Auto layout: [handleAutoLayout] *)

Definition withCachedSize (cache : gmap string Node.t) (node : Node.t) : Node.t :=
  match cache !! Node.id node with
  | Some cachedNode =>
      {| Node.id := Node.id node; Node.type := Node.type node;
         Node.data := Node.data node; Node.position := Node.position node;
         Node.width := nullish_opt (Node.width node) (Node.width cachedNode);
         Node.height := nullish_opt (Node.height node) (Node.height cachedNode) |}
  | None => node
  end.

(** The synchronous part: the request is built and handed to elk. *)
Definition handleAutoLayout (s : State) : State :=
  let nodesToLayout := withCachedSize (cachedNodesMap s) <$> nodes s in
  setInFlight
    (inFlight s ++
      [ {| p_nodes := nodesToLayout;
           p_edges := edges s;
           p_graph := buildGraph nodesToLayout (edges s) (options s)
                        (manuallyMovedNodesSet s) |} ]) s.

(** The promise of the [i]-th pending layout settles: with [None] it is
    rejected and the [then] callback does not run. *)
Definition layoutSettled (i : nat) (answer : option Elk.LayoutedGraph) (s : State) : State :=
  match inFlight s !! i with
  | None => s
  | Some p =>
      let s1 := setInFlight (delete i (inFlight s)) s in
      match answer with
      | None => s1
      | Some layoutedGraph =>
          let r := resumeLayout (p_nodes p) (p_edges p)
                     (manuallyMovedNodesSet s) layoutedGraph in
          let s2 := setNodesEdges (layout_nodes r) (layout_edges r) s1 in
          if autoFitView (options s) then emit [FitView] s2 else s2
      end
  end.

(** *** Update nodes and edges after parsing (before auto layout) *)

Definition mergeCached (cache : gmap string Node.t) (node : Node.t) : Node.t :=
  match cache !! Node.id node with
  | Some cachedNode =>
      if bool_decide (Node.type cachedNode = Node.type node)
         && truthy (Node.width cachedNode) && truthy (Node.height cachedNode)
      then {| Node.id := Node.id node; Node.type := Node.type node;
              Node.data := Node.data node;
              Node.width := Node.width cachedNode;
              Node.height := Node.height cachedNode;
              Node.position := Node.position cachedNode |}
      else {| Node.id := Node.id node; Node.type := Node.type node;
              Node.data := Node.data node;
              Node.width := Node.width node;
              Node.height := Node.height node;
              Node.position := Node.position cachedNode |}
  | None => node
  end.

(** The source changed and was parsed into [newModels]. *)
Definition sourceChanged (newModels : list Model.t) (s : State) : State :=
  let parsedNodes := extractModelNodes newModels in
  let parsedEdges := extractModelEdges newModels (Some "custom") in
  let updatedNodes := mergeCached (cachedNodesMap s) <$> parsedNodes in
  {| nodes := updatedNodes; edges := parsedEdges; models := newModels;
     cachedNodesMap := cachedNodesMap s;
     manuallyMovedNodesSet := manuallyMovedNodesSet s;
     previousEdges := previousEdges s; previousModels := previousModels s;
     options := options s; inFlight := inFlight s;
     outputs := outputs s |}.

(** *** Cache computed nodes and trigger auto layout *)

(** The condition inside the [for] loop. *)
Definition sizeChanged (previousNode : option Node.t) (node : Node.t) : bool :=
  (truthy (previousNode ≫= Node.width)
     && strict_neq (Node.width node) (previousNode ≫= Node.width))
  || (truthy (previousNode ≫= Node.height)
     && strict_neq (Node.height node) (previousNode ≫= Node.height)).

Definition needsAutoLayout (previousEdges : list Edge.t) (cache : gmap string Node.t)
    (nodes : list Node.t) (edges : list Edge.t) : bool :=
  if decide (length previousEdges ≠ length edges) then true
  else if decide (length nodes = size cache) then
    existsb (λ node, sizeChanged (cache !! Node.id node) node) nodes
  else true.

Definition relayoutEffect (s : State) : State :=
  let needs := needsAutoLayout (previousEdges s) (cachedNodesMap s) (nodes s) (edges s) in
  {| nodes := nodes s; edges := edges s; models := models s;
     cachedNodesMap := mapById Node.id (nodes s);
     manuallyMovedNodesSet := manuallyMovedNodesSet s;
     previousEdges :=
       if decide (length (previousEdges s) ≠ length (edges s)) then edges s
       else previousEdges s;
     previousModels := previousModels s;
     options := options s; inFlight := inFlight s;
     outputs := outputs s ++ (if needs then [RequestAnimationFrame] else []) |}.

(** *** Update node internals when node dependencies change *)

(** [models.map((curr) => curr.id).join(":")]; the lists of the embedding
    already hold the ids. *)
Definition topologyHash (ids : list string) : string := join ":" ids.

Definition topologyChanged (previousModels : gmap string Model.t) (model : Model.t) : bool :=
  match previousModels !! Model.id model with
  | None => false                                             (* [continue] *)
  | Some previousModel =>
      let previousDependantsHash := topologyHash (Model.dependants previousModel) in
      let currentDependantsHash := topologyHash (Model.dependants model) in
      let previousDependenciesHash := topologyHash (Model.dependencies previousModel) in
      let currentDependenciesHash := topologyHash (Model.dependencies model) in
      negb (bool_decide (previousDependantsHash = currentDependantsHash))
      || negb (bool_decide (previousDependenciesHash = currentDependenciesHash))
  end.

(** The ids passed to [updateNodeInternals], in call order. *)
Definition invalidated (previousModels : gmap string Model.t) (models : list Model.t)
    : list string :=
  Model.id <$> filter (λ model, topologyChanged previousModels model = true) models.

Definition modelsEffect (s : State) : State :=
  {| nodes := nodes s; edges := edges s; models := models s;
     cachedNodesMap := cachedNodesMap s;
     manuallyMovedNodesSet := manuallyMovedNodesSet s;
     previousEdges := previousEdges s;
     previousModels := mapById Model.id (models s);
     options := options s; inFlight := inFlight s;
     outputs := outputs s ++ (UpdateNodeInternals <$> invalidated (previousModels s) (models s)) |}.

(** *** Handlers *)

Definition handleAutoFitToggle (s : State) : State :=
  handleAutoLayout
    (setOptions (λ o, {| direction := direction o; autoFitView := negb (autoFitView o);
                         theme := theme o; enableMinimap := enableMinimap o |}) s).

Definition handleDirectionToggle (s : State) : State :=
  handleAutoLayout
    (setOptions (λ o, {| direction := if decide (direction o = horizontal)
                                      then vertical else horizontal;
                         autoFitView := true;
                         theme := theme o; enableMinimap := enableMinimap o |}) s).

Definition disableAutoFit (s : State) : State :=
  setOptions (λ o, {| direction := direction o; autoFitView := false;
                      theme := theme o; enableMinimap := enableMinimap o |}) s.

Definition handleMouseDown (insidePanel : bool) (s : State) : State :=
  if insidePanel then s else disableAutoFit s.

Definition handleMove (isWheelEvent : bool) (s : State) : State :=
  if isWheelEvent then disableAutoFit s else s.

Definition handleNodeDragStop (node : Node.t) (s : State) : State :=
  {| nodes := nodes s; edges := edges s; models := models s;
     cachedNodesMap := cachedNodesMap s;
     manuallyMovedNodesSet := {[ Node.id node ]} ∪ manuallyMovedNodesSet s;
     previousEdges := previousEdges s; previousModels := previousModels s;
     options := options s; inFlight := inFlight s;
     outputs := outputs s |}.

(** *** The instance as a transition system *)

Inductive Event :=
| SourceChanged (newModels : list Model.t)
| NodesChange (ns : list Node.t)            (* [onNodesChange]: measured sizes, drags *)
| EdgesChange (es : list Edge.t)
| RelayoutEffect
| ModelsEffect
| Init                                      (* [onInit] *)
| AnimationFrame                            (* a scheduled [handleAutoLayout] runs *)
| LayoutSettled (i : nat) (answer : option Elk.LayoutedGraph)
| AutoFitToggle
| DirectionToggle
| MouseDown (insidePanel : bool)
| Move (isWheelEvent : bool)
| NodeDragStop (node : Node.t).

Definition step (s : State) (e : Event) : State :=
  match e with
  | SourceChanged newModels => sourceChanged newModels s
  | NodesChange ns => setNodesEdges ns (edges s) s
  | EdgesChange es => setNodesEdges (nodes s) es s
  | RelayoutEffect => relayoutEffect s
  | ModelsEffect => modelsEffect s
  | Init | AnimationFrame => handleAutoLayout s
  | LayoutSettled i answer => layoutSettled i answer s
  | AutoFitToggle => handleAutoFitToggle s
  | DirectionToggle => handleDirectionToggle s
  | MouseDown insidePanel => handleMouseDown insidePanel s
  | Move isWheelEvent => handleMove isWheelEvent s
  | NodeDragStop node => handleNodeDragStop node s
  end.

Definition run (s : State) (events : list Event) : State := foldl step s events.

(** ** The model graph: [ModelParser.getModels] *)

Module Parser.
(** Modelled from the spec: the input of [ModelParser] after the TypeScript
    front end ([lib/parser/ModelParser.ts] and the parser it extends are
    missing). A type expression as section 4.2 of the specification
    distinguishes them: a bare name, an array, a generic with arguments, or
    anything else, kept as its text. *)
#[warnings="-register-all"]
Inductive TypeExpr :=
| TName (name : string)
| TArray (element : TypeExpr)
| TGeneric (name : string) (arguments : list TypeExpr)
| TOther (text : string).

Record RawField := mkRawField {
  f_name : string;
  f_type : TypeExpr;
}.

(** Modelled from the spec: the root of a top-level declaration (section
    4.1): object-literal-like with fields, or any other type. *)
Inductive Root :=
| ObjectLike (fields : list RawField)
| NotObject (type : TypeExpr).

Record Declaration := mkDeclaration {
  d_name : string;
  d_root : Root;
}.

(** Modelled from the spec: [rawFields] of section 4.1; a declaration
    whose root is not object-like registers its name with no field. *)
Definition rawFields (d : Declaration) : list RawField :=
  match d_root d with
  | ObjectLike fields => fields
  | NotObject _ => []
  end.

(** Modelled from the spec: the literal textual rendering of a type
    expression (section 4.2, case 4). *)
Fixpoint typeText (t : TypeExpr) : string :=
  match t with
  | TName name => name
  | TArray element => typeText element +:+ "[]"
  | TGeneric name arguments => name +:+ "<" +:+ join ", " (map typeText arguments) +:+ ">"
  | TOther text => text
  end.

(** Modelled from the spec: resolution of one type against the index of
    declared names (section 4.2): a declared name is the model, anything
    else its text. *)
Definition resolve (declared : list string) (t : TypeExpr) : Model.TypeRef :=
  match t with
  | TName name =>
      if decide (name ∈ declared) then Model.Ref name else Model.Literal name
  | _ => Model.Literal (typeText t)
  end.

(** Modelled from the spec: [classify] of section 4.2, cases 1 to 4. *)
Definition classify (declared : list string) (f : RawField) : Model.Field :=
  match f_type f with
  | TArray element => Model.Array (f_name f) (resolve declared element)
  | TGeneric name arguments =>
      Model.Reference (f_name f) name (resolve declared <$> arguments)
  | t => Model.Plain (f_name f) (resolve declared t)
  end.

(** The models a field resolves to, in argument order. *)
Definition fieldRefs (f : Model.Field) : list string :=
  match f with
  | Model.Plain _ (Model.Ref target) => [target]
  | Model.Array _ (Model.Ref target) => [target]
  | Model.Reference _ _ arguments =>
      omap (λ a, match a with Model.Ref target => Some target | _ => None end) arguments
  | _ => []
  end.

(** The models a schema resolves to, in field-then-argument order. *)
Definition schemaRefs (schema : list Model.Field) : list string :=
  schema ≫= fieldRefs.

(** The distinct elements of a list in order of first occurrence: the
    iteration order of a JS [Set] filled from the list. *)
Fixpoint distinct (l : list string) : list string :=
  match l with
  | [] => []
  | x :: rest => x :: filter (λ y, y ≠ x) (distinct rest)
  end.

(** Modelled from the spec: the schema of a declaration (section 4.3,
    pass 2), classified against the names of all declarations. *)
Definition schemaOf (declared : list string) (d : Declaration) : list Model.Field :=
  classify declared <$> rawFields d.

(** Modelled from the spec: the dependencies of a declaration (section
    4.3, pass 2): the resolved references are appended field by field, in
    field-then-argument order, and the fields are not deduplicated against
    each other. Within one field the specification appends one entry per
    reference; the repository's test "parses references" expects a model
    named by two arguments of one field ([Map<A, A>]) once in
    [dependencies] and the referencing model once in [dependants], so a
    field contributes its distinct referenced models. *)
Definition dependenciesOf (declared : list string) (d : Declaration) : list string :=
  schemaOf declared d ≫= λ field, distinct (fieldRefs field).

(** Modelled from the spec: the dependants of [target] (section 4.3,
    pass 2): the referencing model is appended with every entry of
    [target] among its dependencies, declaration by declaration. *)
Definition dependantsOf (decls : list Declaration) (declared : list string)
    (target : string) : list string :=
  decls ≫= λ d,
    (λ _, d_name d) <$> filter (λ y, y = target) (dependenciesOf declared d).

(** Modelled from the spec: [ModelParser.getModels] ([build] of section
    4.3) over the declarations of the source: one model per declaration,
    in declaration order, with id and name the declared name. *)
Definition getModels (decls : list Declaration) : list Model.t :=
  let declared := d_name <$> decls in
  (λ d,
    {| Model.id := d_name d;
       Model.name := d_name d;
       Model.schema := schemaOf declared d;
       Model.dependencies := dependenciesOf declared d;
       Model.dependants := dependantsOf decls declared (d_name d) |}) <$> decls.

(** Modelled from the spec: the adjacency as the specification words it
    (section 4.3, pass 2): one entry per resolved reference, no
    deduplication. *)
Definition dependenciesOf_spec (declared : list string) (d : Declaration) : list string :=
  schemaRefs (schemaOf declared d).

(** Modelled from the spec: the dependants as the specification words
    them: the referencing model once per reference, in encounter order. *)
Definition dependantsOf_spec (decls : list Declaration) (declared : list string)
    (target : string) : list string :=
  decls ≫= (λ d, (λ _, d_name d) <$> filter (λ y, y = target) (dependenciesOf_spec declared d)).
End Parser.

(** The sources of [ModelParser.test.ts]. *)
Module Tests.
Import Parser.

Definition field (name : string) (t : TypeExpr) : RawField :=
  {| f_name := name; f_type := t |}.

(** ["interface A { a: string; }; type B = { b: string };"] *)
Definition top_level : list Declaration :=
  [ mkDeclaration "A" (ObjectLike [field "a" (TName "string")]);
    mkDeclaration "B" (ObjectLike [field "b" (TName "string")]) ].

(** ["type A = string; type B = { field: A };"] *)
Definition alias_not_literal : list Declaration :=
  [ mkDeclaration "A" (NotObject (TName "string"));
    mkDeclaration "B" (ObjectLike [field "field" (TName "A")]) ].

(** ["type A = { a: string[] };"] *)
Definition array_of_primitives : list Declaration :=
  [ mkDeclaration "A" (ObjectLike [field "a" (TArray (TName "string"))]) ].

(** ["type A = { a: B[] }; type B = { b: string };"] *)
Definition array_of_models : list Declaration :=
  [ mkDeclaration "A" (ObjectLike [field "a" (TArray (TName "B"))]);
    mkDeclaration "B" (ObjectLike [field "b" (TName "string")]) ].

(** ["type A = { a: Array<string> }; type B = { b: Record<string, A> };
      type C = { c: Map<A, A> };"] *)
Definition references : list Declaration :=
  [ mkDeclaration "A" (ObjectLike [field "a" (TGeneric "Array" [TName "string"])]);
    mkDeclaration "B"
      (ObjectLike [field "b" (TGeneric "Record" [TName "string"; TName "A"])]);
    mkDeclaration "C"
      (ObjectLike [field "c" (TGeneric "Map" [TName "A"; TName "A"])]) ].
End Tests.

(** ** Sample inputs *)

Module Examples.
(** A layout service that places every requested node at [(x, y)] and
    returns the requested sizes, as a layered layout of fixed-size nodes
    does. *)
Definition placeAllAt (x y : Z) (g : Elk.Graph) : option Elk.LayoutedGraph :=
  Some {| Elk.l_children :=
            Some ((λ c, {| Elk.l_id := Node.id (Elk.node c);
                           Elk.l_x := Some x; Elk.l_y := Some y;
                           Elk.l_width := Some (Elk.width c);
                           Elk.l_height := Some (Elk.height c) |}) <$> Elk.children g) |}.

(** A layout service that answers with a graph without children. *)
Definition emptyLayout (g : Elk.Graph) : option Elk.LayoutedGraph :=
  Some {| Elk.l_children := None |}.

Definition modelA : Model.t :=
  {| Model.id := "A"; Model.name := "A";
     Model.schema := [Model.Plain "a" (Model.Literal "string");
                      Model.Array "bs" (Model.Ref "B")];
     Model.dependencies := ["B"]; Model.dependants := [] |}.

Definition modelB : Model.t :=
  {| Model.id := "B"; Model.name := "B";
     Model.schema := [Model.Plain "b" (Model.Literal "string")];
     Model.dependencies := []; Model.dependants := ["A"] |}.

Definition nodeOf (m : Model.t) (x y : Z) (w h : option Z) : Node.t :=
  {| Node.id := Model.id m; Node.type := Some "model"; Node.data := Some m;
     Node.position := {| pos_x := x; pos_y := y |};
     Node.width := w; Node.height := h |}.

Definition nodeA : Node.t := nodeOf modelA 10 20 (Some 100) (Some 50).
Definition nodeB : Node.t := nodeOf modelB 300 40 (Some 120) (Some 30).

Definition horizontalOptions : RendererOptions :=
  {| direction := horizontal; autoFitView := true; theme := light; enableMinimap := true |}.

Definition verticalOptions : RendererOptions :=
  {| direction := vertical; autoFitView := true; theme := light; enableMinimap := true |}.

(** The model [B] after a model [C] started to depend on it. *)
Definition modelB' : Model.t :=
  {| Model.id := "B"; Model.name := "B";
     Model.schema := [Model.Plain "b" (Model.Literal "string")];
     Model.dependencies := []; Model.dependants := ["A"; "C"] |}.

(** An instance showing the models [A] and [B], as rebuilt with [B']. *)
Definition rebuilt : Renderer.State :=
  {| nodes := [nodeA; nodeB]; edges := [];
     models := [modelA; modelB'];
     cachedNodesMap := ∅; manuallyMovedNodesSet := ∅; previousEdges := [];
     previousModels := mapById Model.id [modelA; modelB];
     options := horizontalOptions; inFlight := []; outputs := [] |}.

(** A fresh instance after the source was parsed into [A] and [B] and the
    node of [B] was dragged. *)
Definition draggedB : Renderer.State :=
  run (Renderer.initial horizontalOptions)
      [SourceChanged [modelA; modelB]; NodeDragStop nodeB].

(** A computed graph that places [A] and [B] at [(7, 9)]. *)
Definition bothAt79 : Elk.LayoutedGraph :=
  {| Elk.l_children :=
       Some [ {| Elk.l_id := "A"; Elk.l_x := Some 7; Elk.l_y := Some 9;
                 Elk.l_width := Some 100; Elk.l_height := Some 50 |};
              {| Elk.l_id := "B"; Elk.l_x := Some 7; Elk.l_y := Some 9;
                 Elk.l_width := Some 120; Elk.l_height := Some 30 |} ] |}.

(** ["type A = { next: A; all: Map<string, A> };"] *)
Definition selfLoop : list Parser.Declaration :=
  [ Parser.mkDeclaration "A"
      (Parser.ObjectLike
         [ Tests.field "next" (Parser.TName "A");
           Tests.field "all"
             (Parser.TGeneric "Map" [Parser.TName "string"; Parser.TName "A"]) ]) ].
End Examples.

(** The number of entries of a list that are [x]. *)
Definition occurrences (x : string) (l : list string) : nat :=
  length (filter (λ y, y = x) l).

(** ** The rules as the specification words them *)

(** The size of a result node as the specification states it: the size
    computed by the layout when it reported both a width and a height for
    the node, the previous size of the node in every other case. *)
Definition specifiedSize (reported : option Elk.Layouted) (node : Node.t)
    : option Z * option Z :=
  match reported with
  | Some ln =>
      match Elk.l_width ln, Elk.l_height ln with
      | Some w, Some h => (Some w, Some h)
      | _, _ => (Node.width node, Node.height node)
      end
  | None => (Node.width node, Node.height node)
  end.

(** The port side the specification attaches to a direction. *)
Definition specifiedPortSide (d : Direction) : string :=
  match d with
  | horizontal => "EAST"
  | vertical => "SOUTH"
  end.

(** A transition as the specification words it: the edge count differs
    from the last one, the node count differs from the count the cache
    tracks, or a node's measured width or height differs from its cached
    metrics. *)
Definition specifiedTransition (previousEdges : list Edge.t) (cache : gmap string Node.t)
    (nodes : list Node.t) (edges : list Edge.t) : Prop :=
  length previousEdges ≠ length edges
  ∨ length nodes ≠ size cache
  ∨ ∃ node previousNode,
      node ∈ nodes ∧ cache !! Node.id node = Some previousNode
      ∧ (Node.width node ≠ Node.width previousNode
         ∨ Node.height node ≠ Node.height previousNode).

(** What the change detection of the renderer reacts to: as above, but a
    width or height only counts against a cached value that is known and
    not zero. *)
Definition detectedChange (previousEdges : list Edge.t) (cache : gmap string Node.t)
    (nodes : list Node.t) (edges : list Edge.t) : Prop :=
  length previousEdges ≠ length edges
  ∨ length nodes ≠ size cache
  ∨ ∃ node previousNode,
      node ∈ nodes ∧ cache !! Node.id node = Some previousNode
      ∧ ((truthy (Node.width previousNode) = true
          ∧ Node.width node ≠ Node.width previousNode)
         ∨ (truthy (Node.height previousNode) = true
            ∧ Node.height node ≠ Node.height previousNode)).

(** An id that is not empty and has no colon, as every TypeScript
    identifier. *)
Fixpoint colonFree (s : string) : bool :=
  match s with
  | EmptyString => true
  | String c rest => negb (Ascii.eqb c ":"%char) && colonFree rest
  end.

Definition wellFormedId (s : string) : Prop := s ≠ "" ∧ colonFree s = true.

(** The topology of a model as the change detection reads it. *)
Definition topologyOf (model : Model.t) : list string * list string :=
  (Model.dependants model, Model.dependencies model).

(** The separator and an id, for every id after the first. *)
Definition hashTail (ids : list string) : string :=
  foldr (λ id acc, ":" +:+ id +:+ acc) "" ids.

(** A string that is empty or starts with the separator: what follows the
    first id in a joined string. *)
Definition separated (t : string) : Prop :=
  t = "" ∨ ∃ rest, t = String ":" rest.

(** ** The edges, declaratively *)

(** The edges a field draws, as target and id suffix, in the order the
    three blocks of the loop body of [extractModelEdges] push them. *)
Definition fieldTargets (field : Model.Field) : list (string * string) :=
  match field with
  | Model.Plain _ (Model.Ref target) => [(target, "")]
  | Model.Array _ (Model.Ref target) => [(target, "")]
  | Model.Reference _ _ arguments =>
      omap (λ argument,
              match argument with
              | Model.Ref target => Some (target, "-" +:+ target)
              | Model.Literal _ => None
              end) arguments
  | _ => []
  end.

(** An edge still to be numbered: the model, the field name, the target
    and the id suffix. *)
Definition EdgeSpec : Type := Model.t * string * string * string.

Definition modelEdgeSpecs (model : Model.t) : list EdgeSpec :=
  Model.schema model ≫= λ field,
    (λ ts : string * string, (model, Model.field_name field, ts.1, ts.2))
      <$> fieldTargets field.

Definition edgeSpecs (models : list Model.t) : list EdgeSpec :=
  models ≫= modelEdgeSpecs.

Definition edgeOf (sharedType : option string) (count : nat) (spec : EdgeSpec) : Edge.t :=
  mkEdge sharedType spec.1.1.1 spec.1.1.2 spec.1.2 spec.2 count.

(** The specs numbered from [start]. *)
Definition numbered (sharedType : option string) (start : nat) (specs : list EdgeSpec)
    : list Edge.t :=
  imap (λ k spec, edgeOf sharedType (start + k) spec) specs.

(** A string without the character [sep]. *)
Fixpoint freeOf (sep : ascii) (s : string) : bool :=
  match s with
  | EmptyString => true
  | String c rest => negb (Ascii.eqb c sep) && freeOf sep rest
  end.

(** * Properties *)

(** ** [getLayoutedElements]: applying the computed graph *)

Lemma getLayoutedElements_resolved elk_layout nodes edges options movedAtCall movedAtResume lg :
  elk_layout (buildGraph nodes edges options movedAtCall) = Some lg →
  getLayoutedElements elk_layout nodes edges options movedAtCall movedAtResume
  = Some (resumeLayout nodes edges movedAtResume lg).
Proof. intros Hlg. unfold getLayoutedElements. by rewrite Hlg. Qed.

Lemma resumeLayout_lookup nodes edges moved lg (i : nat) :
  layout_nodes (resumeLayout nodes edges moved lg) !! i
  = applyLayouted lg moved <$> nodes !! i.
Proof. unfold resumeLayout; simpl. apply list_lookup_fmap. Qed.

Lemma resumeLayout_length nodes edges moved lg :
  length (layout_nodes (resumeLayout nodes edges moved lg)) = length nodes.
Proof. unfold resumeLayout; simpl. apply length_fmap. Qed.

Lemma find_none_not_elem (children : list Elk.Layouted) (nodeId : string) :
  nodeId ∉ Elk.l_id <$> children →
  List.find (λ n, bool_decide (Elk.l_id n = nodeId)) children = None.
Proof.
  induction children as [|c children IH]; simpl; [done|].
  intros Hnot. apply not_elem_of_cons in Hnot as [Hne Hrest].
  rewrite bool_decide_eq_false_2; [by apply IH | congruence].
Qed.

Lemma findLayouted_absent lg nodeId :
  nodeId ∉ Elk.l_id <$> default [] (Elk.l_children lg) →
  findLayouted lg nodeId = None.
Proof.
  unfold findLayouted. destruct (Elk.l_children lg) as [children|]; simpl; [|done].
  apply find_none_not_elem.
Qed.

Lemma findLayouted_id lg nodeId ln :
  findLayouted lg nodeId = Some ln → Elk.l_id ln = nodeId.
Proof.
  unfold findLayouted. destruct (Elk.l_children lg) as [children|]; simpl; [|done].
  intros Hfind. apply List.find_some in Hfind as [_ Heq].
  by apply bool_decide_eq_true in Heq.
Qed.

Lemma applyLayouted_id lg moved n : Node.id (applyLayouted lg moved n) = Node.id n.
Proof. unfold applyLayouted. by destruct (findLayouted lg (Node.id n)). Qed.

Lemma applyLayouted_pinned lg moved n :
  Node.id n ∈ moved → Node.position (applyLayouted lg moved n) = Node.position n.
Proof.
  intros Hin. unfold applyLayouted.
  destruct (findLayouted lg (Node.id n)) as [ln|]; [|done]. simpl.
  rewrite bool_decide_eq_true_2 by done. by destruct (Node.position n).
Qed.

(** C9. A node that the computed graph does not contain comes back as the
    very input node: whenever the layout resolves and no child of the
    computed graph has the id of the input node at index [i], the result
    exists, has as many nodes as the input, and its node at index [i] is
    the input node itself (same id, type, data, position and size). *)
Theorem absent_from_layout_unchanged
    elk_layout nodes edges options movedAtCall movedAtResume lg (i : nat) node :
  elk_layout (buildGraph nodes edges options movedAtCall) = Some lg →
  nodes !! i = Some node →
  Node.id node ∉ Elk.l_id <$> default [] (Elk.l_children lg) →
  ∃ r, getLayoutedElements elk_layout nodes edges options movedAtCall movedAtResume = Some r
       ∧ length (layout_nodes r) = length nodes
       ∧ layout_nodes r !! i = Some node.
Proof.
  intros Hlg Hi Habsent. eexists. split; [by apply getLayoutedElements_resolved|].
  split; [apply resumeLayout_length|].
  rewrite resumeLayout_lookup, Hi. simpl. f_equal.
  unfold applyLayouted. by rewrite findLayouted_absent.
Qed.

Lemma absent_from_layout_unchanged_witness :
  ∃ r, getLayoutedElements Examples.emptyLayout [Examples.nodeA; Examples.nodeB] []
         Examples.horizontalOptions ∅ ∅ = Some r
       ∧ length (layout_nodes r) = length [Examples.nodeA; Examples.nodeB]
       ∧ layout_nodes r !! 1%nat = Some Examples.nodeB.
Proof.
  apply (absent_from_layout_unchanged Examples.emptyLayout
           [Examples.nodeA; Examples.nodeB] [] Examples.horizontalOptions ∅ ∅
           {| Elk.l_children := None |} 1 Examples.nodeB).
  - reflexivity.
  - reflexivity.
  - simpl. apply not_elem_of_nil.
Defined.

(** C3. A pinned node keeps its position: whenever the layout resolves,
    the result node at the index of an input node whose id is in the
    manually-moved set (as the set is when the result is applied) has the
    id and exactly the position of the input node, whatever graph the
    layout service computed. *)
Theorem pinned_position_kept
    elk_layout nodes edges options movedAtCall movedAtResume lg (i : nat) node :
  elk_layout (buildGraph nodes edges options movedAtCall) = Some lg →
  nodes !! i = Some node →
  Node.id node ∈ movedAtResume →
  ∃ r node',
    getLayoutedElements elk_layout nodes edges options movedAtCall movedAtResume = Some r
    ∧ layout_nodes r !! i = Some node'
    ∧ Node.id node' = Node.id node
    ∧ Node.position node' = Node.position node.
Proof.
  intros Hlg Hi Hpinned. do 2 eexists.
  split; [by apply getLayoutedElements_resolved|].
  split; [by rewrite resumeLayout_lookup, Hi|].
  split; [apply applyLayouted_id | by apply applyLayouted_pinned].
Qed.

Lemma pinned_position_kept_witness :
  ∃ r node',
    getLayoutedElements (Examples.placeAllAt 7 9) [Examples.nodeA; Examples.nodeB] []
      Examples.horizontalOptions {[ "B" ]} {[ "B" ]} = Some r
    ∧ layout_nodes r !! 1%nat = Some node'
    ∧ Node.id node' = Node.id Examples.nodeB
    ∧ Node.position node' = Node.position Examples.nodeB.
Proof.
  eapply (pinned_position_kept (Examples.placeAllAt 7 9)
            [Examples.nodeA; Examples.nodeB] [] Examples.horizontalOptions
            {[ "B" ]} {[ "B" ]} _ 1 Examples.nodeB).
  - reflexivity.
  - reflexivity.
  - simpl. set_solver.
Defined.

(** ** [getLayoutedElements]: sizes *)

Lemma applyLayouted_size lg moved n :
  match findLayouted lg (Node.id n) with
  | None => applyLayouted lg moved n = n
  | Some ln =>
      if truthy (Elk.l_width ln) && truthy (Elk.l_height ln)
      then Node.width (applyLayouted lg moved n) = Elk.l_width ln
           ∧ Node.height (applyLayouted lg moved n) = Elk.l_height ln
      else Node.width (applyLayouted lg moved n) = None
           ∧ Node.height (applyLayouted lg moved n) = None
  end.
Proof.
  unfold applyLayouted. destruct (findLayouted lg (Node.id n)) as [ln|]; [|done].
  simpl. by destruct (truthy (Elk.l_width ln) && truthy (Elk.l_height ln)).
Qed.

(** C4, as stated, fails: a node measured 100 wide with no height is sent
    with height 0; a layout that returns the requested sizes reports width
    100 and height 0, and the result node carries no size at all: neither
    the size the specification asks for nor the previous size. *)
Lemma previous_size_dropped :
  let node := Examples.nodeOf Examples.modelA 10 20 (Some 100) None in
  ∃ lg ln node',
    Examples.placeAllAt 7 9 (buildGraph [node] [] Examples.horizontalOptions ∅) = Some lg
    ∧ findLayouted lg (Node.id node) = Some ln
    ∧ (Elk.l_width ln, Elk.l_height ln) = (Some 100, Some 0)
    ∧ getLayoutedElements (Examples.placeAllAt 7 9) [node] []
        Examples.horizontalOptions ∅ ∅
      = Some {| layout_nodes := [node']; layout_edges := [] |}
    ∧ (Node.width node', Node.height node') = (None, None)
    ∧ (Node.width node', Node.height node') ≠ specifiedSize (Some ln) node
    ∧ (Node.width node', Node.height node') ≠ (Node.width node, Node.height node).
Proof.
  intros node. do 3 eexists.
  split; [reflexivity|]. split; [reflexivity|]. split; [reflexivity|].
  split; [reflexivity|]. split; [reflexivity|]. split; by vm_compute.
Qed.

(** C4, amended. Whenever the layout resolves, the result node at the
    index of an input node is: the input node itself (previous size
    included) when the computed graph has no node of that id; a node with
    the computed width and height when the computed node has both a
    non-zero width and a non-zero height; a node without width and height
    in the remaining case. *)
Theorem size_adopted_or_dropped
    elk_layout nodes edges options movedAtCall movedAtResume lg (i : nat) node :
  elk_layout (buildGraph nodes edges options movedAtCall) = Some lg →
  nodes !! i = Some node →
  ∃ r node',
    getLayoutedElements elk_layout nodes edges options movedAtCall movedAtResume = Some r
    ∧ layout_nodes r !! i = Some node'
    ∧ match findLayouted lg (Node.id node) with
      | None => node' = node
      | Some ln =>
          if truthy (Elk.l_width ln) && truthy (Elk.l_height ln)
          then Node.width node' = Elk.l_width ln ∧ Node.height node' = Elk.l_height ln
          else Node.width node' = None ∧ Node.height node' = None
      end.
Proof.
  intros Hlg Hi. do 2 eexists.
  split; [by apply getLayoutedElements_resolved|].
  split; [by rewrite resumeLayout_lookup, Hi|].
  apply applyLayouted_size.
Qed.

Lemma size_adopted_or_dropped_witness :
  ∃ r node',
    getLayoutedElements (Examples.placeAllAt 7 9) [Examples.nodeA; Examples.nodeB] []
      Examples.horizontalOptions ∅ ∅ = Some r
    ∧ layout_nodes r !! 0%nat = Some node'
    ∧ Node.width node' = Some 100 ∧ Node.height node' = Some 50.
Proof.
  destruct (size_adopted_or_dropped (Examples.placeAllAt 7 9)
              [Examples.nodeA; Examples.nodeB] [] Examples.horizontalOptions ∅ ∅
              _ 0 Examples.nodeA eq_refl eq_refl) as (r & node' & Hr & Hi & Hsize).
  exists r, node'. split; [exact Hr|]. split; [exact Hi|]. exact Hsize.
Defined.

(** ** [getLayoutedElements]: the request *)

Lemma buildGraph_child nodes edges options moved (i : nat) :
  Elk.children (buildGraph nodes edges options moved) !! i
  = buildChild moved <$> nodes !! i.
Proof. unfold buildGraph; simpl. apply list_lookup_fmap. Qed.

Lemma mapi_lookup {A B} (f : A → nat → B) (l : list A) (k : nat) :
  mapi f l !! k = (λ a, f a k) <$> l !! k.
Proof. unfold mapi. apply list_lookup_imap. Qed.

Lemma mapi_length {A B} (f : A → nat → B) (l : list A) :
  length (mapi f l) = length l.
Proof. unfold mapi. apply length_imap. Qed.

(** C5, as stated, fails: with the vertical direction the ports are still
    attached on the East side. *)
Lemma vertical_ports_east :
  ∃ child port,
    Elk.children (buildGraph [Examples.nodeB] [] Examples.verticalOptions ∅) = [child]
    ∧ Elk.ports child = Some [port]
    ∧ Elk.properties port = [("port.side", "EAST")]
    ∧ Elk.properties port
      ≠ [("port.side", specifiedPortSide (direction Examples.verticalOptions))].
Proof.
  do 2 eexists. split; [reflexivity|]. split; [reflexivity|].
  split; [reflexivity|]. by vm_compute.
Qed.

(** C5, amended. In the request built from a node list the child at the
    index of a node with a model carries exactly one port per schema field;
    the port of the field at index [k] has the id [`${node.id}-${field.name}`],
    the order [k] and the East side, whatever the direction. A node without
    a model carries no ports. The direction only selects the algorithm's
    direction: RIGHT when horizontal, DOWN when vertical. *)
Theorem ports_follow_schema nodes edges options moved (i : nat) node :
  nodes !! i = Some node →
  ∃ child,
    Elk.children (buildGraph nodes edges options moved) !! i = Some child
    ∧ Elk.node child = node
    ∧ match Node.data node with
      | None => Elk.ports child = None
      | Some model =>
          ∃ ports,
            Elk.ports child = Some ports
            ∧ length ports = length (Model.schema model)
            ∧ ∀ (k : nat) field,
                Model.schema model !! k = Some field →
                ports !! k
                = Some {| Elk.port_id := handleId (Node.id node) (Model.field_name field);
                          Elk.order := k;
                          Elk.properties := [("port.side", "EAST")] |}
      end
    ∧ ("elk.direction",
        match direction options with horizontal => "RIGHT" | vertical => "DOWN" end)
      ∈ Elk.layoutOptions (buildGraph nodes edges options moved).
Proof.
  intros Hi. exists (buildChild moved node).
  split; [by rewrite buildGraph_child, Hi|]. split; [done|]. split.
  - unfold buildChild; simpl. destruct (Node.data node) as [model|]; simpl; [|done].
    eexists. split; [done|]. split; [apply mapi_length|].
    intros k field Hk. by rewrite mapi_lookup, Hk.
  - unfold buildGraph, elkOptions; simpl.
    destruct (direction options); apply list_elem_of_further, list_elem_of_here.
Qed.

Lemma ports_follow_schema_witness :
  ∃ child,
    Elk.children (buildGraph [Examples.nodeA; Examples.nodeB] []
                    Examples.verticalOptions ∅) !! 0%nat = Some child
    ∧ Elk.ports child
      = Some [ {| Elk.port_id := "A-a"; Elk.order := 0;
                  Elk.properties := [("port.side", "EAST")] |};
               {| Elk.port_id := "A-bs"; Elk.order := 1;
                  Elk.properties := [("port.side", "EAST")] |} ].
Proof.
  destruct (ports_follow_schema [Examples.nodeA; Examples.nodeB] []
              Examples.verticalOptions ∅ 0 Examples.nodeA eq_refl)
    as (child & Hchild & Hnode & Hports & _).
  exists child. split; [exact Hchild|].
  simpl in Hports. destruct Hports as (ports & -> & Hlen & Hk).
  f_equal.
  destruct ports as [|p0 [|p1 [|p2 ports]]]; simpl in Hlen; try discriminate.
  pose proof (Hk 0%nat _ eq_refl) as H0. pose proof (Hk 1%nat _ eq_refl) as H1.
  simpl in H0, H1. by simplify_eq.
Defined.

(** ** The relayout change detection *)

Lemma mapById_snoc {V} (key : V → string) (items : list V) (item : V) :
  mapById key (items ++ [item]) = <[key item := item]> (mapById key items).
Proof. unfold mapById. by rewrite foldl_snoc. Qed.

Lemma mapById_lookup_None {V} (key : V → string) (items : list V) (k : string) :
  k ∉ key <$> items → mapById key items !! k = None.
Proof.
  induction items as [|item items IH] using rev_ind; [done|].
  rewrite fmap_app, mapById_snoc. simpl. intros Hnot.
  apply not_elem_of_app in Hnot as [Hitems Hitem].
  rewrite lookup_insert_ne; [by apply IH|].
  intros <-. apply Hitem, list_elem_of_here.
Qed.

Lemma mapById_lookup {V} (key : V → string) (items : list V) (item : V) :
  NoDup (key <$> items) → item ∈ items → mapById key items !! key item = Some item.
Proof.
  induction items as [|last items IH] using rev_ind; [by intros _ ?%elem_of_nil|].
  rewrite fmap_app, mapById_snoc. simpl.
  intros [Hnodup [Hdisj _]]%NoDup_app [Hin | ->%list_elem_of_singleton]%elem_of_app.
  - rewrite lookup_insert_ne; [by apply IH|].
    intros Heq. apply (Hdisj (key item)).
    + by apply list_elem_of_fmap_2.
    + rewrite Heq. apply list_elem_of_here.
  - apply lookup_insert_eq.
Qed.

Lemma mapById_size {V} (key : V → string) (items : list V) :
  NoDup (key <$> items) → size (mapById key items) = length items.
Proof.
  induction items as [|last items IH] using rev_ind; [done|].
  rewrite fmap_app, mapById_snoc, length_app. simpl.
  intros [Hnodup [Hdisj _]]%NoDup_app.
  rewrite map_size_insert_None.
  - rewrite IH by done. lia.
  - apply mapById_lookup_None. intros Hin. apply (Hdisj _ Hin), list_elem_of_here.
Qed.

Lemma strict_neq_true a b : strict_neq a b = true ↔ a ≠ b.
Proof.
  unfold strict_neq. rewrite negb_true_iff. split.
  - by intros ?%bool_decide_eq_false.
  - intros. by apply bool_decide_eq_false.
Qed.

Lemma sizeChanged_true previousNode node :
  sizeChanged previousNode node = true ↔
  ∃ p, previousNode = Some p
       ∧ ((truthy (Node.width p) = true ∧ Node.width node ≠ Node.width p)
          ∨ (truthy (Node.height p) = true ∧ Node.height node ≠ Node.height p)).
Proof.
  unfold sizeChanged. rewrite orb_true_iff, !andb_true_iff, !strict_neq_true.
  destruct previousNode as [p|]; simpl.
  - split; [intros H; by exists p | by intros (? & [= <-] & H)].
  - split; [by intros [[? _] | [? _]] | by intros (? & ? & _)].
Qed.

Lemma sizeChanged_self node : sizeChanged (Some node) node = false.
Proof.
  apply not_true_is_false. rewrite sizeChanged_true.
  intros (p & [= <-] & [[_ H] | [_ H]]); by apply H.
Qed.

Lemma needsAutoLayout_detected previousEdges cache nodes edges :
  needsAutoLayout previousEdges cache nodes edges = true
  ↔ detectedChange previousEdges cache nodes edges.
Proof.
  unfold needsAutoLayout, detectedChange.
  destruct (decide (length previousEdges ≠ length edges)) as [Hedges | Hedges];
    [by split; [left|] |].
  destruct (decide (length nodes = size cache)) as [Hnodes | Hnodes];
    [| by split; [right; left|] ].
  rewrite existsb_exists. split.
  - intros (node & Hin%list_elem_of_In & (p & Hp & Hsize)%sizeChanged_true).
    right; right. by exists node, p.
  - intros [? | [? | (node & p & Hin & Hp & Hsize)]]; [done.. |].
    exists node. split; [by apply list_elem_of_In|].
    apply sizeChanged_true. by exists p.
Qed.

Lemma needsAutoLayout_steady nodes edges :
  NoDup (Node.id <$> nodes) →
  needsAutoLayout edges (mapById Node.id nodes) nodes edges = false.
Proof.
  intros Hnodup. unfold needsAutoLayout.
  rewrite decide_False by (by intros ?).
  rewrite decide_True by (by rewrite mapById_size).
  apply not_true_is_false. rewrite existsb_exists.
  intros (node & Hin%list_elem_of_In & Hchanged).
  rewrite mapById_lookup in Hchanged by done.
  by rewrite sizeChanged_self in Hchanged.
Qed.

Lemma edge_count_change_detected previousEdges cache nodes edges :
  length previousEdges ≠ length edges →
  needsAutoLayout previousEdges cache nodes edges = true.
Proof. intros. apply needsAutoLayout_detected. by left. Qed.

Lemma node_count_change_detected previousEdges cache nodes edges :
  length nodes ≠ size cache →
  needsAutoLayout previousEdges cache nodes edges = true.
Proof. intros. apply needsAutoLayout_detected. right. by left. Qed.

Lemma measured_size_change_detected previousEdges cache nodes edges node previousNode :
  node ∈ nodes →
  cache !! Node.id node = Some previousNode →
  truthy (Node.width previousNode) = true →
  truthy (Node.height previousNode) = true →
  Node.width node ≠ Node.width previousNode
  ∨ Node.height node ≠ Node.height previousNode →
  needsAutoLayout previousEdges cache nodes edges = true.
Proof.
  intros Hin Hcache Hw Hh Hdiff. apply needsAutoLayout_detected.
  right; right. exists node, previousNode. split; [done|]. split; [done|].
  destruct Hdiff; [by left | by right].
Qed.

(** A pass moves the nodes that are not pinned and keeps the pinned one. *)
Example layout_moves_free_nodes_only :
  getLayoutedElements (Examples.placeAllAt 7 9) [Examples.nodeA; Examples.nodeB] []
    Examples.horizontalOptions {[ "B" ]} {[ "B" ]}
  = Some {| layout_nodes :=
              [ Examples.nodeOf Examples.modelA 7 9 (Some 100) (Some 50);
                Examples.nodeOf Examples.modelB 300 40 (Some 120) (Some 30) ];
            layout_edges := [] |}.
Proof. reflexivity. Qed.

(** C6, as stated, fails: the first measurement of a node is a change of
    its measured width and height against the cached metrics, all else
    equal, and the decision is false: no layout pass is requested. The same
    holds for a node whose cached height is zero and whose measured height
    becomes 50. *)
Lemma first_measurement_not_detected :
  let measured := Examples.nodeOf Examples.modelA 10 20 (Some 100) (Some 50) in
  let undetected (cached : Node.t) :=
    let s := {| nodes := [measured]; edges := []; models := [Examples.modelA];
                cachedNodesMap := mapById Node.id [cached];
                manuallyMovedNodesSet := ∅; previousEdges := [];
                previousModels := ∅; options := Examples.horizontalOptions;
                inFlight := []; outputs := [] |} in
    specifiedTransition (previousEdges s) (cachedNodesMap s) (nodes s) (edges s)
    ∧ needsAutoLayout (previousEdges s) (cachedNodesMap s) (nodes s) (edges s) = false
    ∧ outputs (relayoutEffect s) = [] in
  undetected (Examples.nodeOf Examples.modelA 10 20 None None)
  ∧ undetected (Examples.nodeOf Examples.modelA 10 20 (Some 100) (Some 0)).
Proof.
  intros measured undetected.
  split; (split; [|split; by vm_compute]); right; right;
    eexists measured, _; (split; [apply list_elem_of_here|]);
    (split; [by vm_compute | by right]).
Qed.

(** C6, amended. One evaluation of the change detection requests exactly
    one layout pass when its decision is true and none otherwise, and
    leaves the nodes and edges as committed. The decision is true exactly
    when the edge count differs from the previous one, or the node count
    differs from the size of the cache, or some node has a cached entry
    whose known, non-zero width or height differs from the node's current
    one. After the evaluation the cached edge count is the current one and,
    when the node ids are distinct, the cache holds every current node, so
    that an identical re-evaluation requests nothing. *)
Theorem relayout_decision (s : State) :
  let needs := needsAutoLayout (previousEdges s) (cachedNodesMap s) (nodes s) (edges s) in
  let s' := relayoutEffect s in
  (needs = true ↔ detectedChange (previousEdges s) (cachedNodesMap s) (nodes s) (edges s))
  ∧ outputs s' = outputs s ++ (if needs then [RequestAnimationFrame] else [])
  ∧ nodes s' = nodes s ∧ edges s' = edges s
  ∧ length (previousEdges s') = length (edges s)
  ∧ (NoDup (Node.id <$> nodes s) →
       (∀ node, node ∈ nodes s → cachedNodesMap s' !! Node.id node = Some node)
       ∧ needsAutoLayout (previousEdges s') (cachedNodesMap s') (nodes s') (edges s') = false
       ∧ outputs (relayoutEffect s') = outputs s').
Proof.
  intros needs s'. split; [apply needsAutoLayout_detected|].
  split; [done|]. split; [done|]. split; [done|].
  assert (length (previousEdges s') = length (edges s)) as Hlen.
  { subst s'. unfold relayoutEffect; simpl.
    destruct (decide (length (previousEdges s) ≠ length (edges s))) as [|Heq]; [done|].
    by apply dec_stable in Heq. }
  split; [done|]. intros Hnodup.
  assert (needsAutoLayout (previousEdges s') (cachedNodesMap s') (nodes s') (edges s')
          = false) as Hsteady.
  { pose proof (needsAutoLayout_steady (nodes s) (edges s) Hnodup) as Hs.
    unfold needsAutoLayout in *. subst s'. simpl in *.
    rewrite decide_False by (rewrite Hlen; by intros ?).
    by rewrite decide_False in Hs by (by intros ?). }
  split; [intros node Hin; by apply mapById_lookup|]. split; [done|].
  change (outputs (relayoutEffect s'))
    with (outputs s' ++
            (if needsAutoLayout (previousEdges s') (cachedNodesMap s') (nodes s') (edges s')
             then [RequestAnimationFrame] else [])).
  rewrite Hsteady. apply app_nil_r.
Qed.

Lemma relayout_decision_witness :
  let s := {| nodes := [Examples.nodeA; Examples.nodeB]; edges := [];
              models := [Examples.modelA; Examples.modelB];
              cachedNodesMap := ∅; manuallyMovedNodesSet := ∅; previousEdges := [];
              previousModels := ∅; options := Examples.horizontalOptions;
              inFlight := []; outputs := [] |} in
  outputs (relayoutEffect s) = [RequestAnimationFrame]
  ∧ outputs (relayoutEffect (relayoutEffect s)) = [RequestAnimationFrame].
Proof.
  intros s.
  destruct (relayout_decision s) as (_ & Hout & _ & _ & _ & Hsteady).
  destruct Hsteady as (_ & _ & Hagain).
  { compute_done. }
  rewrite Hagain. split; exact Hout.
Defined.

(** ** The topology change detection *)

Lemma append_nil_l (b : string) : "" +:+ b = b.
Proof. reflexivity. Qed.

Lemma append_cons (c : ascii) (a b : string) : String c a +:+ b = String c (a +:+ b).
Proof. reflexivity. Qed.

Lemma append_assoc (a b c : string) : (a +:+ b) +:+ c = a +:+ (b +:+ c).
Proof.
  induction a as [|ch a IH]; [done|]. rewrite !append_cons. by rewrite IH.
Qed.

Lemma append_empty_r (a : string) : a +:+ "" = a.
Proof.
  induction a as [|ch a IH]; [done|]. rewrite append_cons. by rewrite IH.
Qed.

Lemma foldl_hashTail (acc : string) (ids : list string) :
  foldl (λ acc id, acc +:+ ":" +:+ id) acc ids = acc +:+ hashTail ids.
Proof.
  revert acc. induction ids as [|id ids IH]; intros acc.
  - symmetry. apply append_empty_r.
  - cbn [foldl hashTail foldr]. rewrite IH. by rewrite !append_assoc.
Qed.

Lemma topologyHash_cons (id : string) (ids : list string) :
  topologyHash (id :: ids) = id +:+ hashTail ids.
Proof. apply foldl_hashTail. Qed.

Lemma hashTail_cons (id : string) (ids : list string) :
  hashTail (id :: ids) = String ":" (id +:+ hashTail ids).
Proof. reflexivity. Qed.

Lemma hashTail_separated ids : separated (hashTail ids).
Proof. destruct ids as [|id ids]; [by left | right; by eexists]. Qed.

Lemma colonFree_head c rest : colonFree (String c rest) = true → c ≠ ":"%char.
Proof.
  simpl. intros [Hc _]%andb_true_iff ->. by rewrite Ascii.eqb_refl in Hc.
Qed.

Lemma colonFree_tail c rest : colonFree (String c rest) = true → colonFree rest = true.
Proof. simpl. by intros [_ ?]%andb_true_iff. Qed.

Lemma colonFree_prefix_inj (a b t u : string) :
  colonFree a = true → colonFree b = true → separated t → separated u →
  a +:+ t = b +:+ u → a = b ∧ t = u.
Proof.
  revert b. induction a as [|c a IH]; intros [|d b] Ha Hb Ht Hu;
    rewrite ?append_nil_l, ?append_cons; intros Heq.
  - done.
  - destruct Ht as [-> | [rest ->]]; [done|].
    injection Heq as <- _. by apply colonFree_head in Hb.
  - destruct Hu as [-> | [rest ->]]; [done|].
    injection Heq as -> _. by apply colonFree_head in Ha.
  - injection Heq as -> Heq.
    apply colonFree_tail in Ha, Hb.
    destruct (IH b Ha Hb Ht Hu Heq) as [-> ->]. done.
Qed.

Lemma hashTail_inj (l k : list string) :
  Forall wellFormedId l → Forall wellFormedId k →
  hashTail l = hashTail k → l = k.
Proof.
  intros Hl. revert k. induction Hl as [|id l [_ Hid] Hl IH]; intros k Hk Heq.
  - by destruct k.
  - destruct Hk as [|id' k [_ Hid'] Hk]; [done|].
    rewrite !hashTail_cons in Heq. injection Heq as Heq.
    apply colonFree_prefix_inj in Heq as [-> Heq];
      [| done | done | apply hashTail_separated..].
    f_equal. by apply IH.
Qed.

Lemma topologyHash_inj (l k : list string) :
  Forall wellFormedId l → Forall wellFormedId k →
  topologyHash l = topologyHash k → l = k.
Proof.
  intros Hl Hk. destruct Hl as [|id l [Hne Hid] Hl], Hk as [|id' k [Hne' Hid'] Hk].
  - done.
  - rewrite topologyHash_cons. intros Heq. destruct id'; [done | discriminate].
  - rewrite topologyHash_cons. intros Heq. destruct id; [done | discriminate].
  - rewrite !topologyHash_cons. intros Heq.
    apply colonFree_prefix_inj in Heq as [-> Heq];
      [| done | done | apply hashTail_separated..].
    f_equal. by apply hashTail_inj.
Qed.

Lemma topologyChanged_hashes previousModels model :
  topologyChanged previousModels model = true ↔
  ∃ previousModel,
    previousModels !! Model.id model = Some previousModel
    ∧ (topologyHash (Model.dependants previousModel) ≠ topologyHash (Model.dependants model)
       ∨ topologyHash (Model.dependencies previousModel)
         ≠ topologyHash (Model.dependencies model)).
Proof.
  unfold topologyChanged.
  destruct (previousModels !! Model.id model) as [p|]; simpl.
  - rewrite orb_true_iff, !negb_true_iff, !bool_decide_eq_false.
    split; [intros H; by exists p | by intros (? & [= <-] & H)].
  - split; [done | by intros (? & ? & _)].
Qed.

(** C8. One run of the effect over the rebuilt graph calls
    [updateNodeInternals] once for every model of the graph, in order, for
    which the previous graph holds a model of the same id whose joined
    dependants ids or joined dependencies ids differ; for no other model.
    The joined strings of well-formed ids differ exactly when the id
    sequences differ. Afterwards the previous graph is the rebuilt one. *)
Theorem topology_notifications (s : State) :
  outputs (modelsEffect s)
  = outputs s ++
      (UpdateNodeInternals <$>
         (Model.id <$> filter (λ model, topologyChanged (previousModels s) model = true)
                              (models s)))
  ∧ previousModels (modelsEffect s) = mapById Model.id (models s)
  ∧ (∀ model,
       topologyChanged (previousModels s) model = true ↔
       ∃ previousModel,
         previousModels s !! Model.id model = Some previousModel
         ∧ (topologyHash (Model.dependants previousModel)
              ≠ topologyHash (Model.dependants model)
            ∨ topologyHash (Model.dependencies previousModel)
              ≠ topologyHash (Model.dependencies model)))
  ∧ (∀ model previousModel,
       previousModels s !! Model.id model = Some previousModel →
       Forall wellFormedId (Model.dependants model ++ Model.dependencies model) →
       Forall wellFormedId
         (Model.dependants previousModel ++ Model.dependencies previousModel) →
       (topologyChanged (previousModels s) model = true
        ↔ topologyOf previousModel ≠ topologyOf model)).
Proof.
  split; [done|]. split; [done|]. split; [intros; apply topologyChanged_hashes|].
  intros model p Hp [Hts Hcs]%Forall_app [Hpts Hpcs]%Forall_app.
  rewrite topologyChanged_hashes. unfold topologyOf. split.
  - intros (p' & Hp' & Hdiff) [= Hts' Hcs']. rewrite Hp in Hp'. injection Hp' as <-.
    destruct Hdiff as [Hdiff | Hdiff]; apply Hdiff; congruence.
  - intros Hdiff. exists p. split; [done|].
    destruct (decide (topologyHash (Model.dependants p)
                      = topologyHash (Model.dependants model))) as [Heq|]; [|by left].
    right. intros Heq'. apply Hdiff.
    apply topologyHash_inj in Heq, Heq'; [congruence | done..].
Qed.

Lemma topology_notifications_witness :
  outputs (modelsEffect Examples.rebuilt) = [UpdateNodeInternals "B"]
  ∧ (topologyChanged (previousModels Examples.rebuilt) Examples.modelB' = true
     ↔ topologyOf Examples.modelB ≠ topologyOf Examples.modelB').
Proof.
  destruct (topology_notifications Examples.rebuilt) as (Hout & _ & _ & Hseq).
  split; [exact Hout|].
  apply (Hseq Examples.modelB' Examples.modelB).
  - reflexivity.
  - simpl. repeat constructor; done.
  - simpl. repeat constructor; done.
Defined.

(** ** The manually moved nodes *)

Lemma step_manuallyMoved (s : State) (e : Event) :
  manuallyMovedNodesSet (step s e)
  = match e with
    | NodeDragStop node => {[ Node.id node ]} ∪ manuallyMovedNodesSet s
    | _ => manuallyMovedNodesSet s
    end.
Proof.
  destruct e as [| | | | | | | i answer | | | insidePanel | isWheelEvent |]; simpl; try done.
  - unfold layoutSettled. destruct (inFlight s !! i); [|done].
    destruct answer; [|done]. by destruct (autoFitView (options s)).
  - by destruct insidePanel.
  - by destruct isWheelEvent.
Qed.

Lemma step_manuallyMoved_mono (s : State) (e : Event) :
  manuallyMovedNodesSet s ⊆ manuallyMovedNodesSet (step s e).
Proof.
  rewrite step_manuallyMoved. destruct e; try done. apply union_subseteq_r.
Qed.

Lemma run_manuallyMoved_mono (events : list Event) (s : State) :
  manuallyMovedNodesSet s ⊆ manuallyMovedNodesSet (run s events).
Proof.
  revert s. induction events as [|e events IH]; intros s; [done|].
  etrans; [apply (step_manuallyMoved_mono s e) | apply IH].
Qed.

Lemma layoutSettled_pinned (s : State) (i : nat) p lg (k : nat) node :
  inFlight s !! i = Some p →
  p_nodes p !! k = Some node →
  Node.id node ∈ manuallyMovedNodesSet s →
  ∃ node', nodes (layoutSettled i (Some lg) s) !! k = Some node'
           ∧ Node.id node' = Node.id node
           ∧ Node.position node' = Node.position node.
Proof.
  intros Hi Hk Hpinned. exists (applyLayouted lg (manuallyMovedNodesSet s) node).
  split; [|split; [apply applyLayouted_id | by apply applyLayouted_pinned]].
  unfold layoutSettled. rewrite Hi.
  destruct (autoFitView (options s)); simpl; by rewrite list_lookup_fmap, Hk.
Qed.

(** C10. The set of manually moved node ids only grows. A step of the
    instance leaves the set as it is, except the end of a node drag, which
    adds the id of the dragged node; so the set of a state is included in
    the set of every state reached from it. A node whose id is in the set
    is therefore still pinned when any later layout settles: the node the
    pass commits for it has exactly the position of the node the pass was
    requested with. *)
Theorem manually_moved_only_grows (s : State) (events : list Event) :
  (∀ e, manuallyMovedNodesSet (step s e)
        = match e with
          | NodeDragStop node => {[ Node.id node ]} ∪ manuallyMovedNodesSet s
          | _ => manuallyMovedNodesSet s
          end)
  ∧ manuallyMovedNodesSet s ⊆ manuallyMovedNodesSet (run s events)
  ∧ (∀ (i : nat) p lg (k : nat) node,
       inFlight (run s events) !! i = Some p →
       p_nodes p !! k = Some node →
       Node.id node ∈ manuallyMovedNodesSet s →
       ∃ node', nodes (step (run s events) (LayoutSettled i (Some lg))) !! k = Some node'
                ∧ Node.id node' = Node.id node
                ∧ Node.position node' = Node.position node).
Proof.
  split; [apply step_manuallyMoved|]. split; [apply run_manuallyMoved_mono|].
  intros i p lg k node Hi Hk Hpinned. simpl.
  apply (layoutSettled_pinned _ i p); [done..|].
  by apply (run_manuallyMoved_mono events s).
Qed.

Lemma manually_moved_only_grows_witness :
  let later := run Examples.draggedB
                 [AnimationFrame; SourceChanged [Examples.modelA; Examples.modelB'];
                  MouseDown false; RelayoutEffect] in
  "B" ∈ manuallyMovedNodesSet later
  ∧ ∃ node', nodes (step later (LayoutSettled 0 (Some Examples.bothAt79))) !! 1%nat
             = Some node'
             ∧ Node.id node' = "B"
             ∧ Node.position node' = {| pos_x := -1; pos_y := -1 |}.
Proof.
  intros later.
  destruct (manually_moved_only_grows Examples.draggedB
              [AnimationFrame; SourceChanged [Examples.modelA; Examples.modelB'];
               MouseDown false; RelayoutEffect]) as (_ & Hmono & Hpass).
  split.
  - apply Hmono. compute_done.
  - refine (Hpass 0%nat _ Examples.bothAt79 1%nat
              (Examples.nodeOf Examples.modelB (-1) (-1) None None) _ _ _).
    + vm_compute. reflexivity.
    + reflexivity.
    + compute_done.
Defined.

(** ** The model graph *)

Section ModelGraph.
Import Parser.

Lemma getModels_lookup decls (i : nat) :
  getModels decls !! i
  = (λ d,
      {| Model.id := d_name d;
         Model.name := d_name d;
         Model.schema := schemaOf (d_name <$> decls) d;
         Model.dependencies := dependenciesOf (d_name <$> decls) d;
         Model.dependants := dependantsOf decls (d_name <$> decls) (d_name d) |})
    <$> decls !! i.
Proof. unfold getModels. apply list_lookup_fmap. Qed.

Lemma getModels_length decls : length (getModels decls) = length decls.
Proof. unfold getModels. apply length_fmap. Qed.

(** The expectations of [ModelParser.test.ts], a model held by reference
    ([expect.objectContaining({ name })]) being its id here. *)
Example parses_top_level_declarations :
  getModels Tests.top_level
  = [ {| Model.id := "A"; Model.name := "A";
         Model.schema := [Model.Plain "a" (Model.Literal "string")];
         Model.dependencies := []; Model.dependants := [] |};
      {| Model.id := "B"; Model.name := "B";
         Model.schema := [Model.Plain "b" (Model.Literal "string")];
         Model.dependencies := []; Model.dependants := [] |} ].
Proof. reflexivity. Qed.

Example supports_aliases_that_are_not_literals :
  getModels Tests.alias_not_literal
  = [ {| Model.id := "A"; Model.name := "A"; Model.schema := [];
         Model.dependencies := []; Model.dependants := ["B"] |};
      {| Model.id := "B"; Model.name := "B";
         Model.schema := [Model.Plain "field" (Model.Ref "A")];
         Model.dependencies := ["A"]; Model.dependants := [] |} ].
Proof. reflexivity. Qed.

Example parses_arrays_of_primitives :
  getModels Tests.array_of_primitives
  = [ {| Model.id := "A"; Model.name := "A";
         Model.schema := [Model.Array "a" (Model.Literal "string")];
         Model.dependencies := []; Model.dependants := [] |} ].
Proof. reflexivity. Qed.

Example parses_arrays_of_models :
  getModels Tests.array_of_models
  = [ {| Model.id := "A"; Model.name := "A";
         Model.schema := [Model.Array "a" (Model.Ref "B")];
         Model.dependencies := ["B"]; Model.dependants := [] |};
      {| Model.id := "B"; Model.name := "B";
         Model.schema := [Model.Plain "b" (Model.Literal "string")];
         Model.dependencies := []; Model.dependants := ["A"] |} ].
Proof. reflexivity. Qed.

Example parses_references :
  getModels Tests.references
  = [ {| Model.id := "A"; Model.name := "A";
         Model.schema := [Model.Reference "a" "Array" [Model.Literal "string"]];
         Model.dependencies := []; Model.dependants := ["B"; "C"] |};
      {| Model.id := "B"; Model.name := "B";
         Model.schema :=
           [Model.Reference "b" "Record" [Model.Literal "string"; Model.Ref "A"]];
         Model.dependencies := ["A"]; Model.dependants := [] |};
      {| Model.id := "C"; Model.name := "C";
         Model.schema := [Model.Reference "c" "Map" [Model.Ref "A"; Model.Ref "A"]];
         Model.dependencies := ["A"]; Model.dependants := [] |} ].
Proof. reflexivity. Qed.

(** The edges drawn for the graph of the last test: one per reference,
    the field [c: Map<A, A>] gives two. *)
Example edges_of_references :
  (λ e, (Edge.id e, Edge.source e, Edge.target e, Edge.sourceHandle e))
    <$> extractModelEdges (getModels Tests.references) (Some "custom")
  = [ ("1-B-b-A", "B", "A", Some "B-b");
      ("2-C-c-A", "C", "A", Some "C-c");
      ("3-C-c-A", "C", "A", Some "C-c") ].
Proof. reflexivity. Qed.

Lemma elem_of_distinct (x : string) (l : list string) : x ∈ distinct l ↔ x ∈ l.
Proof.
  induction l as [|y l IH]; [done|]. simpl.
  rewrite !elem_of_cons, list_elem_of_filter, IH.
  destruct (decide (x = y)) as [->|Hne]; [split; by left|].
  split.
  - intros [? | [_ ?]]; [by left | by right].
  - intros [? | ?]; [by left | right; by split].
Qed.

Lemma NoDup_distinct (l : list string) : NoDup (distinct l).
Proof.
  induction l as [|y l IH]; simpl; [constructor|].
  apply NoDup_cons. split; [|by apply NoDup_filter].
  by intros [? _]%list_elem_of_filter.
Qed.

Lemma occurrences_not_elem (x : string) (l : list string) :
  x ∉ l → occurrences x l = 0%nat.
Proof.
  unfold occurrences. induction l as [|y l IH]; [done|].
  intros [Hne Hl]%not_elem_of_cons. rewrite filter_cons.
  rewrite decide_False by congruence. by apply IH.
Qed.

Lemma occurrences_NoDup (x : string) (l : list string) :
  NoDup l → x ∈ l → occurrences x l = 1%nat.
Proof.
  unfold occurrences. induction 1 as [|y l Hy Hl IH]; [by intros ?%elem_of_nil|].
  rewrite filter_cons. intros [-> | Hin]%elem_of_cons.
  - rewrite decide_True by done. simpl. f_equal. by apply occurrences_not_elem.
  - rewrite decide_False by (intros ->; done). by apply IH.
Qed.

Lemma resolve_declared declared t target :
  resolve declared t = Model.Ref target → target ∈ declared.
Proof.
  destruct t as [name| | |]; simpl; try done.
  destruct (decide (name ∈ declared)); by intros [= <-].
Qed.

Lemma fieldRefs_declared declared rf target :
  target ∈ fieldRefs (classify declared rf) → target ∈ declared.
Proof.
  unfold classify.
  destruct (f_type rf) as [name | element | name arguments | text] eqn:Ht; simpl.
  - destruct (decide (name ∈ declared)); [|by intros ?%elem_of_nil].
    by intros ->%list_elem_of_singleton.
  - destruct (resolve declared element) as [|ref] eqn:Hr; [by intros ?%elem_of_nil|].
    intros ->%list_elem_of_singleton. by eapply resolve_declared.
  - intros (a & (t & -> & _)%list_elem_of_fmap & Ha)%list_elem_of_omap.
    destruct (resolve declared t) as [|ref] eqn:Hr; [done|].
    injection Ha as <-. by eapply resolve_declared.
  - by intros ?%elem_of_nil.
Qed.

Lemma elem_of_dependenciesOf declared d y :
  y ∈ dependenciesOf declared d ↔ y ∈ schemaRefs (schemaOf declared d).
Proof.
  unfold dependenciesOf, schemaRefs. rewrite !list_elem_of_bind.
  split; intros (field & Hy & Hfield); exists field;
    (split; [by apply elem_of_distinct | done]).
Qed.

Lemma elem_of_dependantsOf decls declared target name :
  name ∈ dependantsOf decls declared target
  ↔ ∃ d, d ∈ decls ∧ d_name d = name ∧ target ∈ dependenciesOf declared d.
Proof.
  unfold dependantsOf. rewrite list_elem_of_bind. split.
  - intros (d & (y & -> & [-> Hy]%list_elem_of_filter)%list_elem_of_fmap & Hd).
    by exists d.
  - intros (d & Hd & <- & Hdep). exists d. split; [|done].
    apply list_elem_of_fmap. exists target. split; [done|].
    by apply list_elem_of_filter.
Qed.

Lemma occurrences_app (x : string) (l k : list string) :
  occurrences x (l ++ k) = (occurrences x l + occurrences x k)%nat.
Proof. unfold occurrences. by rewrite filter_app, length_app. Qed.

Lemma occurrences_bind_none {A} (f : A → list string) (l : list A) (x : string) :
  (∀ a, a ∈ l → x ∉ f a) → occurrences x (l ≫= f) = 0%nat.
Proof.
  intros Hnone. apply occurrences_not_elem.
  intros (a & Hx & Ha)%list_elem_of_bind. by apply (Hnone a).
Qed.

(** Only the element at index [i] contributes entries equal to [x]. *)
Lemma occurrences_bind_single {A} (f : A → list string) (l : list A) (i : nat) a x :
  l !! i = Some a →
  (∀ (j : nat) b, j ≠ i → l !! j = Some b → x ∉ f b) →
  occurrences x (l ≫= f) = occurrences x (f a).
Proof.
  revert i. induction l as [|b l IH]; intros i Hi Hothers; [done|].
  rewrite bind_cons, occurrences_app. destruct i as [|i].
  - injection Hi as ->. rewrite occurrences_bind_none; [lia|].
    intros c [j Hj]%list_elem_of_lookup. by apply (Hothers (S j)).
  - rewrite (occurrences_not_elem x (f b)) by (by apply (Hothers 0%nat)).
    apply (IH i Hi). intros j c Hne Hj. apply (Hothers (S j)); [lia | done].
Qed.

Lemma occurrences_const (name : string) {A} (l : list A) :
  occurrences name ((λ _, name) <$> l) = length l.
Proof.
  unfold occurrences. induction l as [|a l IH]; [done|].
  rewrite fmap_cons, filter_cons, decide_True by done. simpl. by rewrite IH.
Qed.

(** C2. The adjacency is mirrored. For every model [X] of the graph and
    every field of [X] that resolves to a model id [y] (directly, as the
    element of an array, or as an argument of a generic), [y] is among the
    dependencies of [X], the graph has a model of id [y], and [X] is among
    the dependants of every model of id [y]. Nothing excludes that this
    model is [X] itself. *)
Theorem adjacency_mirrored decls (i : nat) X field y :
  getModels decls !! i = Some X →
  field ∈ Model.schema X →
  y ∈ fieldRefs field →
  y ∈ Model.dependencies X
  ∧ (∃ Y, Y ∈ getModels decls ∧ Model.id Y = y)
  ∧ (∀ Y, Y ∈ getModels decls → Model.id Y = y → Model.id X ∈ Model.dependants Y).
Proof.
  rewrite getModels_lookup. intros HX Hfield Hy.
  destruct (decls !! i) as [d|] eqn:Hd; [|done]. injection HX as <-. simpl in *.
  assert (y ∈ dependenciesOf (d_name <$> decls) d) as Hdep.
  { apply elem_of_dependenciesOf, list_elem_of_bind. by exists field. }
  split; [done|]. split.
  - apply list_elem_of_fmap in Hfield as (rf & -> & _).
    apply fieldRefs_declared, list_elem_of_fmap in Hy as (d' & -> & Hd').
    apply list_elem_of_lookup in Hd' as [j Hj].
    pose proof (getModels_lookup decls j) as HY. rewrite Hj in HY. simpl in HY.
    eexists. split; [by eapply list_elem_of_lookup_2 | done].
  - intros Y (d' & -> & Hd')%list_elem_of_fmap <-. simpl.
    apply elem_of_dependantsOf. exists d. split; [|done].
    by eapply list_elem_of_lookup_2.
Qed.

Lemma adjacency_mirrored_witness :
  ∃ X, getModels Examples.selfLoop = [X]
       ∧ Model.id X ∈ Model.dependencies X
       ∧ Model.id X ∈ Model.dependants X.
Proof.
  eexists. split; [reflexivity|].
  destruct (adjacency_mirrored Examples.selfLoop 0 _ (Model.Plain "next" (Model.Ref "A")) "A"
              eq_refl) as (Hdeps & _ & Hdependants).
  - apply list_elem_of_here.
  - apply list_elem_of_here.
  - split; [exact Hdeps|]. apply Hdependants; [apply list_elem_of_here | reflexivity].
Defined.

(** C7. A field whose type is the bare name of a declaration is a direct
    reference to the model of that declaration, whatever the root of that
    declaration: the schema of the referencing model holds, at the index of
    the field, the field with the model as its type; the referenced model
    is among the dependencies of the referencing model and the referencing
    model among the dependants of the referenced one; and a referenced
    declaration whose root is not an object literal yields a model with an
    empty schema. *)
Theorem named_reference_is_model decls (i j k : nat) d rf name target :
  decls !! i = Some d →
  rawFields d !! k = Some rf →
  f_type rf = TName name →
  decls !! j = Some target →
  d_name target = name →
  ∃ X Y,
    getModels decls !! i = Some X ∧ getModels decls !! j = Some Y
    ∧ Model.id X = d_name d ∧ Model.id Y = name
    ∧ Model.schema X !! k = Some (Model.Plain (f_name rf) (Model.Ref name))
    ∧ name ∈ Model.dependencies X
    ∧ Model.id X ∈ Model.dependants Y
    ∧ (∀ t, d_root target = NotObject t → Model.schema Y = []).
Proof.
  intros Hd Hrf Htype Htarget Hname. do 2 eexists.
  split; [by rewrite getModels_lookup, Hd|].
  split; [by rewrite getModels_lookup, Htarget|]. simpl.
  split; [done|]. split; [done|].
  assert (name ∈ d_name <$> decls) as Hdeclared.
  { rewrite <- Hname. by eapply list_elem_of_fmap_2, list_elem_of_lookup_2. }
  assert (classify (d_name <$> decls) rf = Model.Plain (f_name rf) (Model.Ref name))
    as Hclass.
  { unfold classify. rewrite Htype. simpl. by rewrite decide_True. }
  assert (name ∈ dependenciesOf (d_name <$> decls) d) as Hdep.
  { apply elem_of_dependenciesOf, list_elem_of_bind.
    exists (Model.Plain (f_name rf) (Model.Ref name)).
    split; [apply list_elem_of_here|].
    rewrite <- Hclass. by eapply list_elem_of_fmap_2, list_elem_of_lookup_2. }
  split; [unfold schemaOf; by rewrite list_lookup_fmap, Hrf, <- Hclass|].
  split; [done|]. split.
  - rewrite Hname. apply elem_of_dependantsOf. exists d.
    split; [by eapply list_elem_of_lookup_2 | done].
  - intros t Hroot. unfold schemaOf, rawFields. by rewrite Hroot.
Qed.

Lemma named_reference_is_model_witness :
  ∃ A B,
    getModels Tests.alias_not_literal = [A; B]
    ∧ Model.schema A = []
    ∧ Model.dependants A = ["B"]
    ∧ Model.schema B = [Model.Plain "field" (Model.Ref "A")]
    ∧ Model.dependencies B = ["A"].
Proof.
  destruct (named_reference_is_model Tests.alias_not_literal 1 0 0
              _ _ "A" _ eq_refl eq_refl eq_refl eq_refl eq_refl)
    as (X & Y & HX & HY & _).
  injection HX as <-. injection HY as <-.
  do 2 eexists. repeat split; reflexivity.
Defined.

(** C1, as stated, fails on the third declaration of the test "parses
    references": the field [c: Map<A, A>] resolves to [A] twice, and the
    dependencies of [C] hold [A] once, the dependants of [A] hold [C] once,
    as the test expects; one entry per occurrence, as the specification
    words the adjacency, would be two. *)
Lemma duplicate_reference_one_entry :
  ∃ A B C field,
    getModels Tests.references = [A; B; C]
    ∧ Model.schema C = [field]
    ∧ occurrences (Model.id A) (fieldRefs field) = 2%nat
    ∧ Model.dependencies C = ["A"]
    ∧ occurrences (Model.id A) (Model.dependencies C) = 1%nat
    ∧ Model.dependants A = ["B"; "C"]
    ∧ occurrences (Model.id C) (Model.dependants A) = 1%nat
    ∧ dependenciesOf_spec ["A"; "B"; "C"]
        (mkDeclaration "C"
           (ObjectLike [Tests.field "c" (TGeneric "Map" [TName "A"; TName "A"])]))
      = ["A"; "A"].
Proof. do 4 eexists. repeat split; reflexivity. Qed.

(** C1, amended. The references of one field to one model are recorded
    once. If a field of the model [X] of the graph resolves to the model
    [Y] of the graph, once or several times, and no other field of [X]
    resolves to [Y], then the dependencies of [X] hold the id of [Y]
    exactly once and, when the declared names are distinct, the dependants
    of [Y] hold the id of [X] exactly once. *)
Theorem adjacency_recorded_once decls (i j k : nat) X Y field :
  getModels decls !! i = Some X →
  getModels decls !! j = Some Y →
  Model.schema X !! k = Some field →
  Model.id Y ∈ fieldRefs field →
  (∀ (k' : nat) field',
     k' ≠ k → Model.schema X !! k' = Some field' → Model.id Y ∉ fieldRefs field') →
  occurrences (Model.id Y) (Model.dependencies X) = 1%nat
  ∧ (NoDup (d_name <$> decls) →
     occurrences (Model.id X) (Model.dependants Y) = 1%nat).
Proof.
  rewrite !getModels_lookup. intros HX HY Hk Href Hothers.
  destruct (decls !! i) as [d|] eqn:Hd; [|done]. injection HX as <-.
  destruct (decls !! j) as [d'|] eqn:Hd'; [|done]. injection HY as <-.
  cbn [Model.id Model.schema Model.dependencies Model.dependants] in *.
  assert (occurrences (d_name d') (dependenciesOf (d_name <$> decls) d) = 1%nat)
    as Hdeps.
  { unfold dependenciesOf.
    rewrite (occurrences_bind_single (λ f, distinct (fieldRefs f)) _ k field _ Hk).
    - apply occurrences_NoDup; [apply NoDup_distinct | by apply elem_of_distinct].
    - intros k' field' Hne Hk' Hin. rewrite elem_of_distinct in Hin.
      by apply (Hothers k' field'). }
  split; [done|]. intros Hnodup. unfold dependantsOf.
  rewrite (occurrences_bind_single
             (λ d0, (λ _, d_name d0)
                      <$> filter (λ y, y = d_name d')
                                 (dependenciesOf (d_name <$> decls) d0))
             _ i d _ Hd).
  - rewrite occurrences_const. exact Hdeps.
  - intros i' d0 Hne Hi' (y & Hname & _)%list_elem_of_fmap. apply Hne.
    apply (NoDup_lookup (d_name <$> decls) i' i (d_name d)); [done | |].
    + by rewrite list_lookup_fmap, Hi', Hname.
    + by rewrite list_lookup_fmap, Hd.
Qed.

Lemma adjacency_recorded_once_witness :
  ∃ A C,
    getModels Tests.references !! 0%nat = Some A
    ∧ getModels Tests.references !! 2%nat = Some C
    ∧ occurrences "A" (Model.dependencies C) = 1%nat
    ∧ occurrences "C" (Model.dependants A) = 1%nat.
Proof.
  do 2 eexists. split; [reflexivity|]. split; [reflexivity|].
  destruct (adjacency_recorded_once Tests.references 2 0 0 _ _
              (Model.Reference "c" "Map" [Model.Ref "A"; Model.Ref "A"])
              eq_refl eq_refl eq_refl)
    as [Hdeps Hdependants].
  - compute_done.
  - intros [|k'] field' Hne Hk'; [done | discriminate].
  - split; [exact Hdeps|]. apply Hdependants. compute_done.
Defined.
End ModelGraph.

(** * Further properties of the renderer *)

(** ** [extractModelEdges] *)

Lemma numbered_nil sharedType start : numbered sharedType start [] = [].
Proof. reflexivity. Qed.

Lemma numbered_app sharedType start (a b : list EdgeSpec) :
  numbered sharedType start (a ++ b)
  = numbered sharedType start a ++ numbered sharedType (start + length a) b.
Proof.
  unfold numbered. rewrite imap_app. f_equal.
  apply imap_ext. intros k spec _. simpl. f_equal. lia.
Qed.

Lemma numbered_singleton sharedType start spec :
  numbered sharedType start [spec] = [edgeOf sharedType start spec].
Proof. unfold numbered. simpl. by rewrite Nat.add_0_r. Qed.

Lemma numbered_length sharedType start specs :
  length (numbered sharedType start specs) = length specs.
Proof. apply length_imap. Qed.

Lemma numbered_lookup sharedType start specs (k : nat) :
  numbered sharedType start specs !! k
  = edgeOf sharedType (start + k) <$> specs !! k.
Proof. unfold numbered. by rewrite list_lookup_imap. Qed.

Lemma numbered_cons sharedType start spec (specs : list EdgeSpec) :
  numbered sharedType start (spec :: specs)
  = edgeOf sharedType start spec :: numbered sharedType (S start) specs.
Proof.
  change (spec :: specs) with ([spec] ++ specs).
  rewrite numbered_app, numbered_singleton. simpl. do 2 f_equal. lia.
Qed.

(** The inner loop over the arguments of a generic. *)
Lemma argumentEdges_numbered sharedType model name arguments result (count : nat) :
  let specs := (λ ts : string * string, (model, name, ts.1, ts.2))
                 <$> fieldTargets (Model.Reference name "" arguments) in
  foldl (λ a argument,
           match argument with
           | Model.Ref target =>
               pushEdge a (mkEdge sharedType model name target ("-" +:+ target))
           | Model.Literal _ => a
           end) (result, count) arguments
  = (result ++ numbered sharedType count specs, (count + length specs)%nat).
Proof.
  revert result count.
  induction arguments as [|[text|target] arguments IH]; intros result count.
  - simpl. rewrite app_nil_r. f_equal. lia.
  - apply IH.
  - cbn [foldl]. unfold pushEdge at 2. cbn [fst snd]. rewrite IH.
    cbn [fieldTargets]. csimpl. rewrite numbered_cons, <- app_assoc.
    f_equal. lia.
Qed.

(** The specs of one field of [model]. *)
Lemma fieldEdges_numbered sharedType model (acc : EdgeAcc) field :
  let specs := (λ ts : string * string, (model, Model.field_name field, ts.1, ts.2))
                 <$> fieldTargets field in
  fieldEdges sharedType model acc field
  = (acc.1 ++ numbered sharedType acc.2 specs, (acc.2 + length specs)%nat).
Proof.
  destruct acc as [result count].
  destruct field as [name [text|target] | name [text|target] | name referenceName arguments];
    cbn [fieldEdges fieldTargets Model.field_name fst snd].
  - simpl. rewrite app_nil_r. f_equal. lia.
  - unfold pushEdge. simpl. rewrite numbered_singleton. f_equal. lia.
  - simpl. rewrite app_nil_r. f_equal. lia.
  - unfold pushEdge. simpl. rewrite numbered_singleton. f_equal. lia.
  - apply argumentEdges_numbered.
Qed.

Lemma schemaEdges_numbered sharedType model (acc : EdgeAcc) (schema : list Model.Field) :
  let specs := schema ≫= λ field,
                 (λ ts : string * string, (model, Model.field_name field, ts.1, ts.2))
                   <$> fieldTargets field in
  foldl (fieldEdges sharedType model) acc schema
  = (acc.1 ++ numbered sharedType acc.2 specs, (acc.2 + length specs)%nat).
Proof.
  cbv zeta. revert acc. induction schema as [|field schema IH]; intros acc.
  - destruct acc. simpl. rewrite app_nil_r. f_equal. lia.
  - cbn [foldl]. rewrite IH, fieldEdges_numbered. cbn [fst snd].
    rewrite bind_cons, numbered_app, length_app, <- app_assoc. f_equal. lia.
Qed.

Lemma modelsEdges_numbered sharedType (acc : EdgeAcc) (models : list Model.t) :
  foldl (λ acc model, foldl (fieldEdges sharedType model) acc (Model.schema model))
        acc models
  = (acc.1 ++ numbered sharedType acc.2 (edgeSpecs models),
     (acc.2 + length (edgeSpecs models))%nat).
Proof.
  revert acc. induction models as [|model models IH]; intros acc.
  - destruct acc. simpl. rewrite app_nil_r. f_equal. lia.
  - cbn [foldl]. rewrite IH, schemaEdges_numbered. cbn [fst snd].
    unfold edgeSpecs. rewrite bind_cons. fold (edgeSpecs models).
    rewrite numbered_app, length_app, <- app_assoc. f_equal.
    symmetry. apply Nat.add_assoc.
Qed.

Lemma extractModelEdges_as_numbered (models : list Model.t) (sharedType : option string) :
  extractModelEdges models sharedType = numbered sharedType 1 (edgeSpecs models).
Proof. unfold extractModelEdges. by rewrite modelsEdges_numbered. Qed.

(** X1. The edges are the references of the schemas in encounter order
    (model, then field, then argument): there is one edge per resolved
    reference, and the edge at index [k] is the one of the reference at
    index [k], with the sequence number [k + 1] in its id, the model as its
    source, the referenced model as its target and the handle of the field
    as its source handle. *)
Theorem extractModelEdges_per_reference
    (models : list Model.t) (sharedType : option string) (k : nat) :
  length (extractModelEdges models sharedType) = length (edgeSpecs models)
  ∧ extractModelEdges models sharedType !! k
    = (λ spec : EdgeSpec,
         {| Edge.id := pretty (S k) +:+ "-" +:+ Model.id spec.1.1.1 +:+ "-"
                         +:+ spec.1.1.2 +:+ spec.2;
            Edge.source := Model.id spec.1.1.1;
            Edge.target := spec.1.2;
            Edge.sourceHandle := Some (handleId (Model.id spec.1.1.1) spec.1.1.2);
            Edge.type := sharedType |}) <$> edgeSpecs models !! k.
Proof.
  rewrite extractModelEdges_as_numbered. split; [apply numbered_length|].
  by rewrite numbered_lookup.
Qed.

(** *** Edge ids *)

Lemma freeOf_prefix_inj (sep : ascii) (a b t u : string) :
  freeOf sep a = true → freeOf sep b = true →
  a +:+ String sep t = b +:+ String sep u → a = b ∧ t = u.
Proof.
  revert b. induction a as [|c a IH]; intros [|d b] Ha Hb;
    rewrite ?append_nil_l, ?append_cons; intros Heq.
  - by injection Heq as ->.
  - injection Heq as <- _. simpl in Hb. by rewrite Ascii.eqb_refl in Hb.
  - injection Heq as -> _. simpl in Ha. by rewrite Ascii.eqb_refl in Ha.
  - injection Heq as -> Heq. simpl in Ha, Hb.
    apply andb_true_iff in Ha as [_ Ha]. apply andb_true_iff in Hb as [_ Hb].
    destruct (IH b Ha Hb Heq) as [-> ->]. done.
Qed.

Lemma pretty_N_char_no_dash (x : N) : Ascii.eqb (pretty_N_char x) "-"%char = false.
Proof. unfold pretty_N_char. by repeat case_match. Qed.

Lemma pretty_N_go_no_dash (x : N) (s : string) :
  freeOf "-" s = true → freeOf "-" (pretty_N_go x s) = true.
Proof.
  revert s. induction (N.lt_wf_0 x) as [x _ IH]; intros s Hs.
  destruct (decide (x = 0)%N) as [->|Hx]; [by rewrite pretty_N_go_0|].
  rewrite pretty_N_go_step by lia. apply IH.
  - apply N.div_lt; lia.
  - simpl. by rewrite pretty_N_char_no_dash.
Qed.

Lemma pretty_nat_no_dash (n : nat) : freeOf "-" (pretty n) = true.
Proof.
  unfold pretty, pretty_nat, pretty, pretty_N.
  case_decide; [done|]. by apply pretty_N_go_no_dash.
Qed.

Lemma edgeOf_id_inj sharedType (c1 c2 : nat) (spec1 spec2 : EdgeSpec) :
  Edge.id (edgeOf sharedType c1 spec1) = Edge.id (edgeOf sharedType c2 spec2) → c1 = c2.
Proof.
  unfold edgeOf, mkEdge. cbn [Edge.id]. intros Heq.
  apply freeOf_prefix_inj in Heq as [Heq _]; [|apply pretty_nat_no_dash..].
  by apply (inj pretty) in Heq.
Qed.

(** X2. The ids of the extracted edges are pairwise distinct: each starts
    with its own sequence number and a dash. *)
Theorem extractModelEdges_ids_distinct (models : list Model.t) (sharedType : option string) :
  NoDup (Edge.id <$> extractModelEdges models sharedType).
Proof.
  rewrite extractModelEdges_as_numbered. apply NoDup_alt. intros i j id.
  rewrite !list_lookup_fmap, !numbered_lookup.
  destruct (edgeSpecs models !! i) as [spec1|]; [|done].
  destruct (edgeSpecs models !! j) as [spec2|]; [|done]. simpl.
  intros [= <-] [= Heq]. apply (edgeOf_id_inj sharedType) in Heq. lia.
Qed.

(** ** Nodes after a source change *)

Lemma mergeCached_frame cache node :
  Node.id (mergeCached cache node) = Node.id node
  ∧ Node.type (mergeCached cache node) = Node.type node
  ∧ Node.data (mergeCached cache node) = Node.data node.
Proof.
  unfold mergeCached. destruct (cache !! Node.id node) as [cachedNode|]; [|done].
  by destruct (bool_decide (Node.type cachedNode = Node.type node)
               && truthy (Node.width cachedNode) && truthy (Node.height cachedNode)).
Qed.

Lemma withCachedSize_frame cache node :
  Node.id (withCachedSize cache node) = Node.id node
  ∧ Node.type (withCachedSize cache node) = Node.type node
  ∧ Node.data (withCachedSize cache node) = Node.data node
  ∧ Node.position (withCachedSize cache node) = Node.position node.
Proof. unfold withCachedSize. by destruct (cache !! Node.id node). Qed.

Lemma sourceChanged_lookup (s : State) (ms : list Model.t) (k : nat) :
  nodes (sourceChanged ms s) !! k
  = (λ model,
       mergeCached (cachedNodesMap s)
         {| Node.id := Model.id model; Node.type := Some "model";
            Node.data := Some model;
            Node.position := {| pos_x := -1; pos_y := -1 |};
            Node.width := None; Node.height := None |}) <$> ms !! k.
Proof.
  unfold sourceChanged, extractModelNodes. cbn [nodes].
  rewrite !list_lookup_fmap. by destruct (ms !! k).
Qed.

(** X3. After a source change the committed nodes are the models, in
    order: as many nodes as models, the node at the index of a model has
    the id of the model, the type "model" and the model itself as data
    (never a cached one); the edges are the extracted ones, and the caches,
    the pinned set and the pending layouts are untouched. *)
Theorem source_change_commits_models (s : State) (ms : list Model.t) (k : nat) model :
  ms !! k = Some model →
  length (nodes (sourceChanged ms s)) = length ms
  ∧ (∃ node, nodes (sourceChanged ms s) !! k = Some node
             ∧ Node.id node = Model.id model
             ∧ Node.type node = Some "model"
             ∧ Node.data node = Some model)
  ∧ edges (sourceChanged ms s) = extractModelEdges ms (Some "custom")
  ∧ cachedNodesMap (sourceChanged ms s) = cachedNodesMap s
  ∧ manuallyMovedNodesSet (sourceChanged ms s) = manuallyMovedNodesSet s
  ∧ inFlight (sourceChanged ms s) = inFlight s
  ∧ outputs (sourceChanged ms s) = outputs s.
Proof.
  intros Hk. split.
  { unfold sourceChanged, extractModelNodes. cbn [nodes]. by rewrite !length_fmap. }
  split; [|done].
  eexists. split; [by rewrite sourceChanged_lookup, Hk|].
  by destruct (mergeCached_frame (cachedNodesMap s)
                 {| Node.id := Model.id model; Node.type := Some "model";
                    Node.data := Some model;
                    Node.position := {| pos_x := -1; pos_y := -1 |};
                    Node.width := None; Node.height := None |}) as (-> & -> & ->).
Qed.

Lemma source_change_commits_models_witness :
  ∃ node,
    nodes (sourceChanged [Examples.modelA; Examples.modelB'] Examples.rebuilt) !! 1%nat
    = Some node
    ∧ Node.id node = "B" ∧ Node.data node = Some Examples.modelB'.
Proof.
  destruct (source_change_commits_models Examples.rebuilt
              [Examples.modelA; Examples.modelB'] 1 Examples.modelB' eq_refl)
    as (_ & (node & Hnode & Hid & _ & Hdata) & _).
  by exists node.
Defined.

(** X4. A rebuilt node inherits from the cache by id. Without a cached
    node of its id it is unmeasured at [(-1, -1)]. With one it takes the
    cached position in every case, and the cached width and height only
    when the cached node has the same type and both a non-zero width and a
    non-zero height; otherwise it is committed without a size. *)
Theorem source_change_inherits_placement (s : State) (ms : list Model.t) (k : nat) model :
  ms !! k = Some model →
  ∃ node,
    nodes (sourceChanged ms s) !! k = Some node
    ∧ match cachedNodesMap s !! Model.id model with
      | None =>
          Node.position node = {| pos_x := -1; pos_y := -1 |}
          ∧ Node.width node = None ∧ Node.height node = None
      | Some cachedNode =>
          Node.position node = Node.position cachedNode
          ∧ if bool_decide (Node.type cachedNode = Some "model")
               && truthy (Node.width cachedNode) && truthy (Node.height cachedNode)
            then Node.width node = Node.width cachedNode
                 ∧ Node.height node = Node.height cachedNode
            else Node.width node = None ∧ Node.height node = None
      end.
Proof.
  intros Hk. eexists. split; [by rewrite sourceChanged_lookup, Hk|].
  unfold mergeCached. cbn [Node.id Node.type].
  destruct (cachedNodesMap s !! Model.id model) as [cachedNode|]; [|done].
  by destruct (bool_decide (Node.type cachedNode = Some "model")
               && truthy (Node.width cachedNode) && truthy (Node.height cachedNode)).
Qed.

Lemma source_change_inherits_placement_witness :
  let s := relayoutEffect Examples.rebuilt in
  ∃ node,
    nodes (sourceChanged [Examples.modelB'; Examples.modelA] s) !! 0%nat = Some node
    ∧ Node.position node = {| pos_x := 300; pos_y := 40 |}
    ∧ Node.width node = Some 120 ∧ Node.height node = Some 30.
Proof.
  intros s.
  destruct (source_change_inherits_placement s [Examples.modelB'; Examples.modelA]
              0 Examples.modelB' eq_refl) as (node & Hnode & Hplace).
  exists node. split; [exact Hnode|]. exact Hplace.
Defined.

(** ** The layout request of a parsed source *)

Lemma elem_of_edgeSpecs (models : list Model.t) (spec : EdgeSpec) :
  spec ∈ edgeSpecs models →
  ∃ model field, model ∈ models ∧ field ∈ Model.schema model
                 ∧ spec.1.1.1 = model ∧ spec.1.1.2 = Model.field_name field.
Proof.
  unfold edgeSpecs, modelEdgeSpecs.
  intros (model & (field & (ts & -> & _)%list_elem_of_fmap & Hfield)%list_elem_of_bind
                & Hmodel)%list_elem_of_bind.
  by exists model, field.
Qed.

Lemma handleAutoLayout_inFlight (s : State) :
  inFlight (handleAutoLayout s)
  = inFlight s ++
      [ {| p_nodes := withCachedSize (cachedNodesMap s) <$> nodes s;
           p_edges := edges s;
           p_graph := buildGraph (withCachedSize (cachedNodesMap s) <$> nodes s)
                        (edges s) (options s) (manuallyMovedNodesSet s) |} ].
Proof. reflexivity. Qed.

Lemma handleAutoLayout_pending (s : State) p :
  inFlight (handleAutoLayout s) !! length (inFlight s) = Some p →
  p = {| p_nodes := withCachedSize (cachedNodesMap s) <$> nodes s;
         p_edges := edges s;
         p_graph := buildGraph (withCachedSize (cachedNodesMap s) <$> nodes s)
                      (edges s) (options s) (manuallyMovedNodesSet s) |}.
Proof.
  rewrite handleAutoLayout_inFlight, list_lookup_middle by done. by intros [= <-].
Qed.

(** X5. In the layout request built right after a source change, every
    edge leaves at a port the request declares: its single source is the
    id of a port of the child whose node is the source model of the edge,
    and its single target is the target of the edge. *)
Theorem request_edges_leave_at_ports (s : State) (ms : list Model.t) p er :
  inFlight (handleAutoLayout (sourceChanged ms s)) !! length (inFlight s) = Some p →
  er ∈ Elk.edges (p_graph p) →
  ∃ child ports port,
    child ∈ Elk.children (p_graph p)
    ∧ Node.id (Elk.node child) = Edge.source (Elk.edge er)
    ∧ Elk.ports child = Some ports
    ∧ port ∈ ports
    ∧ Elk.sources er = [Elk.port_id port]
    ∧ Elk.targets er = [Edge.target (Elk.edge er)].
Proof.
  intros Hp Her.
  apply (handleAutoLayout_pending (sourceChanged ms s)) in Hp as ->.
  cbn [p_graph buildGraph Elk.edges Elk.children] in *.
  apply list_elem_of_fmap in Her as (e & -> & He).
  change (edges (sourceChanged ms s)) with (extractModelEdges ms (Some "custom")) in He.
  rewrite extractModelEdges_as_numbered in He.
  apply list_elem_of_lookup in He as [k Hk]. rewrite numbered_lookup in Hk.
  destruct (edgeSpecs ms !! k) as [spec|] eqn:Hspec; [|done]. injection Hk as <-.
  apply list_elem_of_lookup_2, elem_of_edgeSpecs in Hspec
    as (model & field & Hmodel & Hfield & Hsm & Hsf).
  apply list_elem_of_lookup in Hmodel as [i Hi].
  apply list_elem_of_lookup in Hfield as [j Hj].
  pose proof (sourceChanged_lookup s ms i) as Hnode. rewrite Hi in Hnode.
  set (node := withCachedSize (cachedNodesMap (sourceChanged ms s))
                 (mergeCached (cachedNodesMap s)
                    {| Node.id := Model.id model; Node.type := Some "model";
                       Node.data := Some model;
                       Node.position := {| pos_x := -1; pos_y := -1 |};
                       Node.width := None; Node.height := None |})).
  assert (Node.id node = Model.id model ∧ Node.data node = Some model) as [Hid Hdata].
  { subst node. destruct (withCachedSize_frame (cachedNodesMap (sourceChanged ms s))
      (mergeCached (cachedNodesMap s)
         {| Node.id := Model.id model; Node.type := Some "model";
            Node.data := Some model;
            Node.position := {| pos_x := -1; pos_y := -1 |};
            Node.width := None; Node.height := None |})) as (-> & _ & -> & _).
    by destruct (mergeCached_frame (cachedNodesMap s)
      {| Node.id := Model.id model; Node.type := Some "model";
         Node.data := Some model;
         Node.position := {| pos_x := -1; pos_y := -1 |};
         Node.width := None; Node.height := None |}) as (-> & _ & ->). }
  exists (buildChild (manuallyMovedNodesSet (sourceChanged ms s)) node),
         (mapi (buildPort node) (Model.schema model)),
         (buildPort node field j).
  split.
  { apply list_elem_of_fmap_2. apply (list_elem_of_lookup_2 _ i).
    subst node. by rewrite list_lookup_fmap, Hnode. }
  split; [cbn; by rewrite Hid, <- Hsm|].
  split; [cbn; by rewrite Hdata|].
  split; [eapply list_elem_of_lookup_2; by rewrite mapi_lookup, Hj|].
  split; [|done].
  cbn. by rewrite Hid, <- Hsm, <- Hsf.
Qed.

Lemma request_edges_leave_at_ports_witness :
  let s := Renderer.initial Examples.horizontalOptions in
  let ms := [Examples.modelA; Examples.modelB] in
  ∃ p er child,
    inFlight (handleAutoLayout (sourceChanged ms s)) !! 0%nat = Some p
    ∧ Elk.edges (p_graph p) = [er]
    ∧ child ∈ Elk.children (p_graph p)
    ∧ Node.id (Elk.node child) = "A"
    ∧ Elk.sources er = ["A-bs"]
    ∧ Elk.targets er = ["B"].
Proof.
  intros s ms.
  destruct (request_edges_leave_at_ports s ms _
              (buildEdge (mkEdge (Some "custom") Examples.modelA "bs" "B" "" 1)) eq_refl)
    as (child & ports & port & Hchild & Hid & _ & _ & _ & _).
  { apply list_elem_of_here. }
  do 2 eexists. exists child.
  split; [reflexivity|]. split; [reflexivity|].
  split; [exact Hchild|]. split; [exact Hid|]. split; reflexivity.
Defined.

(** ** More on [getLayoutedElements] *)

Lemma applyLayouted_frame lg moved n :
  Node.id (applyLayouted lg moved n) = Node.id n
  ∧ Node.type (applyLayouted lg moved n) = Node.type n
  ∧ Node.data (applyLayouted lg moved n) = Node.data n.
Proof. unfold applyLayouted. by destruct (findLayouted lg (Node.id n)). Qed.

(** X6. A layout never adds, drops, reorders or retargets anything:
    whenever it resolves, the result has the input edges, as many nodes as
    the input, and at every index a node with the id, type and data of the
    input node at that index. *)
Theorem layout_keeps_identity
    elk_layout nodes edges options movedAtCall movedAtResume lg (i : nat) node :
  elk_layout (buildGraph nodes edges options movedAtCall) = Some lg →
  nodes !! i = Some node →
  ∃ r node',
    getLayoutedElements elk_layout nodes edges options movedAtCall movedAtResume = Some r
    ∧ layout_edges r = edges
    ∧ length (layout_nodes r) = length nodes
    ∧ layout_nodes r !! i = Some node'
    ∧ Node.id node' = Node.id node
    ∧ Node.type node' = Node.type node
    ∧ Node.data node' = Node.data node.
Proof.
  intros Hlg Hi. do 2 eexists.
  split; [by apply getLayoutedElements_resolved|]. split; [done|].
  split; [apply resumeLayout_length|].
  split; [by rewrite resumeLayout_lookup, Hi|]. apply applyLayouted_frame.
Qed.

Lemma layout_keeps_identity_witness :
  ∃ r node',
    getLayoutedElements (Examples.placeAllAt 7 9) [Examples.nodeA; Examples.nodeB] []
      Examples.verticalOptions ∅ ∅ = Some r
    ∧ layout_edges r = []
    ∧ layout_nodes r !! 1%nat = Some node'
    ∧ Node.id node' = "B"
    ∧ Node.data node' = Some Examples.modelB.
Proof.
  destruct (layout_keeps_identity (Examples.placeAllAt 7 9)
              [Examples.nodeA; Examples.nodeB] [] Examples.verticalOptions ∅ ∅
              _ 1 Examples.nodeB eq_refl eq_refl)
    as (r & node' & Hr & Hedges & _ & Hi & Hid & _ & Hdata).
  by exists r, node'.
Defined.

(** X7. A node that is not pinned and that the computed graph contains
    takes the computed coordinates, each on its own: a coordinate the
    computed node lacks is kept from the input node. *)
Theorem free_node_takes_coordinates
    elk_layout nodes edges options movedAtCall movedAtResume lg (i : nat) node ln :
  elk_layout (buildGraph nodes edges options movedAtCall) = Some lg →
  nodes !! i = Some node →
  findLayouted lg (Node.id node) = Some ln →
  Node.id node ∉ movedAtResume →
  ∃ r node',
    getLayoutedElements elk_layout nodes edges options movedAtCall movedAtResume = Some r
    ∧ layout_nodes r !! i = Some node'
    ∧ Node.position node'
      = {| pos_x := default (pos_x (Node.position node)) (Elk.l_x ln);
           pos_y := default (pos_y (Node.position node)) (Elk.l_y ln) |}.
Proof.
  intros Hlg Hi Hln Hfree. do 2 eexists.
  split; [by apply getLayoutedElements_resolved|].
  split; [by rewrite resumeLayout_lookup, Hi|].
  unfold applyLayouted. rewrite Hln. cbn [Node.position].
  by rewrite bool_decide_eq_false_2.
Qed.

Lemma free_node_takes_coordinates_witness :
  let onlyX (g : Elk.Graph) :=
    Some {| Elk.l_children :=
              Some [ {| Elk.l_id := "A"; Elk.l_x := Some 7; Elk.l_y := None;
                        Elk.l_width := None; Elk.l_height := None |} ] |} in
  ∃ r node',
    getLayoutedElements onlyX [Examples.nodeA] [] Examples.horizontalOptions ∅ ∅ = Some r
    ∧ layout_nodes r !! 0%nat = Some node'
    ∧ Node.position node' = {| pos_x := 7; pos_y := 20 |}.
Proof.
  intros onlyX.
  eapply (free_node_takes_coordinates onlyX [Examples.nodeA] []
           Examples.horizontalOptions ∅ ∅ _ 0 Examples.nodeA
           {| Elk.l_id := "A"; Elk.l_x := Some 7; Elk.l_y := None;
              Elk.l_width := None; Elk.l_height := None |}).
  - reflexivity.
  - reflexivity.
  - reflexivity.
  - apply not_elem_of_empty.
Defined.

Lemma applyLayouted_idempotent lg moved n :
  applyLayouted lg moved (applyLayouted lg moved n) = applyLayouted lg moved n.
Proof.
  unfold applyLayouted at 1. rewrite applyLayouted_id.
  unfold applyLayouted.
  destruct (findLayouted lg (Node.id n)) as [ln|] eqn:Hln; [|done].
  cbn [Node.id Node.type Node.data Node.position Node.width Node.height pos_x pos_y].
  destruct (bool_decide (Node.id n ∈ moved)); [done|].
  f_equal. f_equal; [by destruct (Elk.l_x ln) | by destruct (Elk.l_y ln)].
Qed.

(** X8. Applying a computed graph is idempotent: applying the same graph,
    with the same pinned set, to the nodes of its own result gives that
    result again. *)
Theorem resumeLayout_idempotent nodes edges moved lg :
  resumeLayout (layout_nodes (resumeLayout nodes edges moved lg))
               (layout_edges (resumeLayout nodes edges moved lg)) moved lg
  = resumeLayout nodes edges moved lg.
Proof.
  unfold resumeLayout. cbn [layout_nodes layout_edges]. f_equal.
  rewrite <- list_fmap_compose. apply list_fmap_ext.
  intros _ n _. apply applyLayouted_idempotent.
Qed.

(** ** Layouts in flight *)

Lemma lookup_snoc_length {A} (l : list A) (x : A) : (l ++ [x]) !! length l = Some x.
Proof. by rewrite list_lookup_middle. Qed.

Lemma delete_snoc_length {A} (l : list A) (x : A) : delete (length l) (l ++ [x]) = l.
Proof. rewrite delete_middle. apply app_nil_r. Qed.

(** X9. A layout that settles commits the nodes and edges it was
    requested with, not the current ones. When the source changes while a
    layout is in flight and the layout then resolves, the committed nodes
    are again those of the time of the request (same ids and data, in the
    same order) and the committed edges the edges of that time, while the
    models are the new ones. *)
Theorem stale_layout_overwrites (s : State) (ms : list Model.t) (lg : Elk.LayoutedGraph) :
  let s' := run s [AnimationFrame; SourceChanged ms;
                   LayoutSettled (length (inFlight s)) (Some lg)] in
  Node.id <$> nodes s' = Node.id <$> nodes s
  ∧ Node.data <$> nodes s' = Node.data <$> nodes s
  ∧ edges s' = edges s
  ∧ models s' = ms
  ∧ inFlight s' = inFlight s.
Proof.
  cbn [run foldl step]. unfold layoutSettled.
  change (inFlight (sourceChanged ms (handleAutoLayout s)))
    with (inFlight (handleAutoLayout s)).
  rewrite handleAutoLayout_inFlight, lookup_snoc_length, delete_snoc_length.
  cbn [p_nodes p_edges resumeLayout layout_nodes layout_edges].
  assert (∀ (f : Node.t → Node.t) (l : list Node.t),
            (∀ n, Node.id (f n) = Node.id n ∧ Node.data (f n) = Node.data n) →
            Node.id <$> (f <$> l) = Node.id <$> l
            ∧ Node.data <$> (f <$> l) = Node.data <$> l) as Hframe.
  { intros f l Hf. rewrite <- !list_fmap_compose.
    split; apply list_fmap_ext; intros _ n _; simpl; by destruct (Hf n). }
  assert (∀ moved cache n,
            Node.id (applyLayouted lg moved (withCachedSize cache n)) = Node.id n
            ∧ Node.data (applyLayouted lg moved (withCachedSize cache n)) = Node.data n)
    as Hnode.
  { intros moved cache n.
    destruct (applyLayouted_frame lg moved (withCachedSize cache n)) as (-> & _ & ->).
    by destruct (withCachedSize_frame cache n) as (-> & _ & -> & _). }
  set (moved := manuallyMovedNodesSet (sourceChanged ms (handleAutoLayout s))).
  destruct (Hframe (applyLayouted lg moved ∘ withCachedSize (cachedNodesMap s))
              (nodes s) (Hnode moved (cachedNodesMap s))) as [Hid Hdata].
  rewrite (list_fmap_compose (withCachedSize (cachedNodesMap s))
             (applyLayouted lg moved)) in Hid, Hdata.
  by destruct (autoFitView (options (sourceChanged ms (handleAutoLayout s)))).
Qed.

(** ** The node cache *)

Lemma mapById_lookup_Some {V} (key : V → string) (items : list V) (k : string) (v : V) :
  mapById key items !! k = Some v → v ∈ items ∧ key v = k.
Proof.
  induction items as [|last items IH] using rev_ind; [done|].
  rewrite mapById_snoc. destruct (decide (key last = k)) as [<-|Hne].
  - rewrite lookup_insert_eq. intros [= <-].
    split; [apply elem_of_app; right; apply list_elem_of_here | done].
  - rewrite lookup_insert_ne by done. intros [Hin Hk]%IH.
    split; [apply elem_of_app; by left | done].
Qed.

Lemma mapById_lookup_last {V} (key : V → string) (before after : list V) (v : V) :
  key v ∉ key <$> after →
  mapById key (before ++ v :: after) !! key v = Some v.
Proof.
  induction after as [|last after IH] using rev_ind; intros Hnot.
  - rewrite mapById_snoc. apply lookup_insert_eq.
  - rewrite fmap_app in Hnot. apply not_elem_of_app in Hnot as [Hafter Hlast].
    rewrite app_comm_cons, app_assoc, mapById_snoc.
    rewrite lookup_insert_ne; [by apply IH|].
    intros Heq. apply Hlast. rewrite <- Heq. apply list_elem_of_here.
Qed.

Lemma mapById_lookup_None_iff {V} (key : V → string) (items : list V) (k : string) :
  mapById key items !! k = None ↔ k ∉ key <$> items.
Proof.
  split; [|apply mapById_lookup_None].
  intros Hnone (v & -> & Hv)%list_elem_of_fmap.
  apply list_elem_of_split in Hv as (before & after & ->).
  assert (∃ w, mapById key (before ++ v :: after) !! key v = Some w) as [w Hw];
    [|congruence].
  clear Hnone. induction after as [|last after IH] using rev_ind.
  - eexists. rewrite mapById_snoc. apply lookup_insert_eq.
  - destruct IH as [w Hw]. rewrite app_comm_cons, app_assoc, mapById_snoc.
    destruct (decide (key last = key v)) as [Heq|Hne].
    + eexists. rewrite Heq. apply lookup_insert_eq.
    + exists w. by rewrite lookup_insert_ne.
Qed.

Lemma mapById_size_le {V} (key : V → string) (items : list V) :
  (size (mapById key items) ≤ length items)%nat.
Proof.
  induction items as [|last items IH] using rev_ind; [done|].
  rewrite mapById_snoc, length_app, map_size_insert. simpl.
  destruct (mapById key items !! key last); unfold id; lia.
Qed.

Lemma mapById_size_NoDup {V} (key : V → string) (items : list V) :
  size (mapById key items) = length items → NoDup (key <$> items).
Proof.
  induction items as [|last items IH] using rev_ind; [constructor|].
  rewrite mapById_snoc, length_app, map_size_insert, fmap_app. simpl.
  pose proof (mapById_size_le key items) as Hle.
  destruct (mapById key items !! key last) as [v|] eqn:Hlast; unfold id; [lia|].
  intros Hsize. apply NoDup_app. split; [apply IH; lia|].
  split; [|apply NoDup_singleton].
  intros k Hk ->%list_elem_of_singleton.
  by apply mapById_lookup_None_iff in Hlast.
Qed.

(** X10. The change detection replaces the node cache wholesale by the
    committed nodes. Afterwards an id has an entry exactly when a committed
    node has it, so the placement of a node that disappeared is forgotten;
    an entry is a committed node of that id, and of several nodes with one
    id the last one. *)
Theorem relayout_refreshes_cache (s : State) (k : string) :
  (cachedNodesMap (relayoutEffect s) !! k = None ↔ k ∉ Node.id <$> nodes s)
  ∧ (∀ n, cachedNodesMap (relayoutEffect s) !! k = Some n →
          n ∈ nodes s ∧ Node.id n = k)
  ∧ (∀ before n after,
       nodes s = before ++ n :: after →
       Node.id n ∉ Node.id <$> after →
       cachedNodesMap (relayoutEffect s) !! Node.id n = Some n).
Proof.
  cbn [relayoutEffect cachedNodesMap].
  split; [apply mapById_lookup_None_iff|].
  split; [intros n; apply mapById_lookup_Some|].
  intros before n after -> Hnot. by apply mapById_lookup_last.
Qed.

Lemma relayout_refreshes_cache_witness :
  let s := Examples.rebuilt in
  cachedNodesMap (relayoutEffect s) !! "B" = Some Examples.nodeB
  ∧ cachedNodesMap (relayoutEffect s) !! "C" = None.
Proof.
  intros s. destruct (relayout_refreshes_cache s "C") as (Hnone & _ & _).
  destruct (relayout_refreshes_cache s "B") as (_ & _ & Hlast).
  split.
  - apply (Hlast [Examples.nodeA] Examples.nodeB []); [reflexivity|].
    apply not_elem_of_nil.
  - apply Hnone. compute_done.
Defined.

(** X11. With two committed nodes of one id the change detection never
    comes to rest: the node count exceeds the size of the refreshed cache,
    so every further evaluation on the same nodes and edges requests a
    layout again. *)
Theorem duplicate_ids_relayout_again (s : State) :
  ¬ NoDup (Node.id <$> nodes s) →
  let s' := relayoutEffect s in
  needsAutoLayout (previousEdges s') (cachedNodesMap s') (nodes s') (edges s') = true
  ∧ outputs (relayoutEffect s') = outputs s' ++ [RequestAnimationFrame].
Proof.
  intros Hdup s'.
  assert (needsAutoLayout (previousEdges s') (cachedNodesMap s') (nodes s') (edges s')
          = true) as Hneeds.
  { apply needsAutoLayout_detected. right; left.
    subst s'. cbn [relayoutEffect nodes cachedNodesMap].
    intros Hsize. by apply Hdup, mapById_size_NoDup. }
  split; [done|].
  change (outputs (relayoutEffect s'))
    with (outputs s' ++
            (if needsAutoLayout (previousEdges s') (cachedNodesMap s') (nodes s') (edges s')
             then [RequestAnimationFrame] else [])).
  by rewrite Hneeds.
Qed.

Lemma duplicate_ids_relayout_again_witness :
  let s := setNodesEdges [Examples.nodeA; Examples.nodeA] [] Examples.rebuilt in
  outputs (relayoutEffect (relayoutEffect s))
  = outputs (relayoutEffect s) ++ [RequestAnimationFrame].
Proof.
  intros s. apply (duplicate_ids_relayout_again s).
  intros Hnodup. apply NoDup_cons in Hnodup as [Hnot _].
  apply Hnot, list_elem_of_here.
Defined.

(** ** The topology effect at rest *)

Lemma invalidated_nil previousModels (models : list Model.t) :
  (∀ model, model ∈ models → topologyChanged previousModels model = false) →
  invalidated previousModels models = [].
Proof.
  unfold invalidated. induction models as [|model models IH]; intros Hall; [done|].
  rewrite filter_cons, decide_False.
  - apply IH. intros m Hm. apply Hall. by right.
  - rewrite Hall; [done | by left].
Qed.

Lemma topologyChanged_self previousModels model :
  previousModels !! Model.id model = Some model →
  topologyChanged previousModels model = false.
Proof.
  intros Hp. unfold topologyChanged. rewrite Hp. simpl.
  by rewrite !bool_decide_eq_true_2.
Qed.

(** X12. The topology effect is silent on the first graph and at rest:
    while the previous graph is empty it notifies nobody, and, the model
    ids being distinct, running it again on the same graph notifies
    nobody. *)
Theorem topology_effect_rests (s : State) :
  (previousModels s = ∅ → outputs (modelsEffect s) = outputs s)
  ∧ (NoDup (Model.id <$> models s) →
     outputs (modelsEffect (modelsEffect s)) = outputs (modelsEffect s)).
Proof.
  split.
  - intros Hempty. cbn [modelsEffect outputs].
    rewrite invalidated_nil; [apply app_nil_r|].
    intros model _. unfold topologyChanged. by rewrite Hempty, lookup_empty.
  - intros Hnodup.
    change (outputs (modelsEffect (modelsEffect s)))
      with (outputs (modelsEffect s) ++
              (UpdateNodeInternals <$>
                 invalidated (mapById Model.id (models s)) (models s))).
    rewrite invalidated_nil; [apply app_nil_r|].
    intros model Hmodel. apply topologyChanged_self. by apply mapById_lookup.
Qed.

Lemma topology_effect_rests_witness :
  outputs (modelsEffect (Renderer.initial Examples.horizontalOptions)) = []
  ∧ outputs (modelsEffect (modelsEffect Examples.rebuilt))
    = outputs (modelsEffect Examples.rebuilt).
Proof.
  destruct (topology_effect_rests (Renderer.initial Examples.horizontalOptions))
    as [Hfirst _].
  destruct (topology_effect_rests Examples.rebuilt) as [_ Hagain].
  split; [exact (Hfirst eq_refl) | apply Hagain; compute_done].
Defined.

(** ** A source change that leaves the models as they are *)

Lemma sizeChanged_mergeCached cache cachedNode node :
  cache !! Node.id node = Some cachedNode →
  Node.type cachedNode = Node.type node →
  truthy (Node.width cachedNode) = truthy (Node.height cachedNode) →
  sizeChanged (Some cachedNode) (mergeCached cache node) = false.
Proof.
  intros Hcache Htype Hboth. unfold mergeCached. rewrite Hcache.
  rewrite bool_decide_eq_true_2 by done.
  unfold sizeChanged. cbn [mbind option_bind].
  destruct (truthy (Node.width cachedNode)) eqn:Hw,
           (truthy (Node.height cachedNode)) eqn:Hh; try discriminate; cbn [andb orb].
  - cbn [Node.width Node.height]. unfold strict_neq.
    by rewrite !bool_decide_eq_true_2.
  - done.
Qed.

(** X13. Parsing a source into the models the cache already tracks
    requests no layout. If the model ids are distinct, the cache holds
    exactly their ids, every cached node has the type "model" and either
    both or neither of a non-zero width and height, and the number of
    extracted edges is the previous edge count, then the change detection
    that follows the source change decides against a layout. *)
Theorem unchanged_models_no_relayout (s : State) (ms : list Model.t) :
  NoDup (Model.id <$> ms) →
  dom (cachedNodesMap s) = list_to_set (Model.id <$> ms) →
  (∀ id cachedNode,
     cachedNodesMap s !! id = Some cachedNode →
     Node.type cachedNode = Some "model"
     ∧ truthy (Node.width cachedNode) = truthy (Node.height cachedNode)) →
  length (previousEdges s) = length (extractModelEdges ms (Some "custom")) →
  let s' := sourceChanged ms s in
  needsAutoLayout (previousEdges s') (cachedNodesMap s') (nodes s') (edges s') = false
  ∧ outputs (relayoutEffect s') = outputs s.
Proof.
  intros Hnodup Hdom Hcached Hedges s'.
  assert (needsAutoLayout (previousEdges s') (cachedNodesMap s') (nodes s') (edges s')
          = false) as Hneeds.
  { subst s'. unfold needsAutoLayout.
    cbn [sourceChanged previousEdges cachedNodesMap nodes edges].
    rewrite decide_False by (by intros ?).
    rewrite decide_True.
    2:{ unfold extractModelNodes. rewrite !length_fmap.
        rewrite <- (size_dom (D:=gset string)), Hdom, size_list_to_set by done.
        by rewrite length_fmap. }
    apply not_true_is_false. rewrite existsb_exists.
    intros (node & Hin%list_elem_of_In & Hchanged).
    apply list_elem_of_fmap in Hin as (fresh & -> & Hfresh).
    apply list_elem_of_fmap in Hfresh as (model & -> & Hmodel).
    destruct (mergeCached_frame (cachedNodesMap s)
                {| Node.id := Model.id model; Node.type := Some "model";
                   Node.position := {| pos_x := -1; pos_y := -1 |};
                   Node.data := Some model;
                   Node.width := None; Node.height := None |}) as (Hid & _).
    rewrite Hid in Hchanged. cbn [Node.id] in Hchanged.
    assert (is_Some (cachedNodesMap s !! Model.id model)) as [cachedNode Hc].
    { apply elem_of_dom. rewrite Hdom. apply elem_of_list_to_set.
      by apply list_elem_of_fmap_2. }
    rewrite Hc in Hchanged. destruct (Hcached _ _ Hc) as [Htype Hboth].
    by rewrite sizeChanged_mergeCached in Hchanged. }
  split; [done|].
  change (outputs (relayoutEffect s'))
    with (outputs s' ++
            (if needsAutoLayout (previousEdges s') (cachedNodesMap s') (nodes s') (edges s')
             then [RequestAnimationFrame] else [])).
  rewrite Hneeds. apply app_nil_r.
Qed.

Lemma unchanged_models_no_relayout_witness :
  let s := run (Renderer.initial Examples.horizontalOptions)
             [ SourceChanged [Examples.modelA; Examples.modelB];
               NodesChange [Examples.nodeA; Examples.nodeB];
               RelayoutEffect ] in
  outputs (relayoutEffect (sourceChanged [Examples.modelA; Examples.modelB] s))
  = outputs s.
Proof.
  intros s.
  apply (unchanged_models_no_relayout s [Examples.modelA; Examples.modelB]).
  - compute_done.
  - compute_done.
  - intros id cachedNode Hc.
    apply mapById_lookup_Some in Hc as [Hin _].
    apply elem_of_cons in Hin as [-> | Hin]; [done|].
    apply list_elem_of_singleton in Hin as ->. done.
  - reflexivity.
Defined.

(** ** The option handlers *)

(** X14. The orientation button flips the direction, turns auto-fit on
    and requests one layout in the new direction (DOWN after horizontal,
    RIGHT after vertical) without touching the nodes; pressing it twice
    restores the direction. *)
Theorem direction_toggle_requests_layout (s : State) :
  let s1 := handleDirectionToggle s in
  direction (options s1)
  = match direction (options s) with horizontal => vertical | vertical => horizontal end
  ∧ autoFitView (options s1) = true
  ∧ nodes s1 = nodes s ∧ edges s1 = edges s
  ∧ (∃ p, inFlight s1 = inFlight s ++ [p]
          ∧ ("elk.direction",
              match direction (options s) with
              | horizontal => "DOWN"
              | vertical => "RIGHT"
              end) ∈ Elk.layoutOptions (p_graph p))
  ∧ direction (options (handleDirectionToggle s1)) = direction (options s).
Proof.
  cbn [handleDirectionToggle handleAutoLayout setOptions setInFlight options
       direction autoFitView nodes edges inFlight].
  split; [by destruct (direction (options s))|]. split; [done|].
  split; [done|]. split; [done|]. split.
  - eexists. split; [reflexivity|]. cbn [p_graph buildGraph Elk.layoutOptions].
    unfold elkOptions. cbn [direction].
    destruct (direction (options s)); apply list_elem_of_further, list_elem_of_here.
  - by destruct (direction (options s)).
Qed.

(** X15. A settled layout asks to fit the view exactly when auto-fit is
    on at that moment. A mouse press outside the panel or a wheel move
    turns it off, so a layout that resolves afterwards does not refit; a
    press inside the panel leaves it as it is, and the orientation button
    turns it on again. *)
Theorem fit_view_follows_auto_fit (s : State) (i : nat) p lg :
  inFlight s !! i = Some p →
  outputs (layoutSettled i (Some lg) s)
  = outputs s ++ (if autoFitView (options s) then [FitView] else [])
  ∧ outputs (run s [MouseDown false; LayoutSettled i (Some lg)]) = outputs s
  ∧ outputs (run s [Move true; LayoutSettled i (Some lg)]) = outputs s
  ∧ outputs (run s [MouseDown true; LayoutSettled i (Some lg)])
    = outputs (layoutSettled i (Some lg) s)
  ∧ outputs (run s [MouseDown false; DirectionToggle; LayoutSettled i (Some lg)])
    = outputs s ++ [FitView].
Proof.
  intros Hi.
  assert (∀ s0, inFlight s0 !! i = Some p →
            outputs (layoutSettled i (Some lg) s0)
            = outputs s0 ++ (if autoFitView (options s0) then [FitView] else []))
    as Hsettle.
  { intros s0 H0. unfold layoutSettled. rewrite H0.
    destruct (autoFitView (options s0)); [done|]. symmetry. apply app_nil_r. }
  split; [by apply Hsettle|].
  cbn [run foldl step handleMouseDown handleMove].
  split; [rewrite Hsettle by done; apply app_nil_r|].
  split; [rewrite Hsettle by done; apply app_nil_r|].
  split; [done|].
  rewrite Hsettle; [done|].
  cbn [handleDirectionToggle handleAutoLayout setInFlight setOptions disableAutoFit
       inFlight].
  by apply lookup_app_l_Some.
Qed.

Lemma fit_view_follows_auto_fit_witness :
  let s := handleAutoLayout Examples.rebuilt in
  outputs (layoutSettled 0 (Some Examples.bothAt79) s) = [FitView]
  ∧ outputs (run s [MouseDown false; LayoutSettled 0 (Some Examples.bothAt79)]) = [].
Proof.
  intros s.
  destruct (fit_view_follows_auto_fit s 0 _ Examples.bothAt79 eq_refl)
    as (Hsettle & Hpress & _).
  split; [exact Hsettle | exact Hpress].
Defined.

(** ** The request of [handleAutoLayout] *)

(** X16. The request of an auto layout has one child per committed node,
    in order. The child of a node is sent with the node's own width and
    height, for a dimension the node lacks with the cached one of its id,
    and with 0 when that is absent too; it carries the node's position as
    a seed exactly when the node is pinned. The committed nodes and edges
    and the caches stay as they are. *)
Theorem auto_layout_request (s : State) (k : nat) node :
  nodes s !! k = Some node →
  ∃ p child,
    inFlight (handleAutoLayout s) = inFlight s ++ [p]
    ∧ p_edges p = edges s
    ∧ length (Elk.children (p_graph p)) = length (nodes s)
    ∧ Elk.children (p_graph p) !! k = Some child
    ∧ Node.id (Elk.node child) = Node.id node
    ∧ Elk.width child
      = default (default 0 (cachedNodesMap s !! Node.id node ≫= Node.width))
                (Node.width node)
    ∧ Elk.height child
      = default (default 0 (cachedNodesMap s !! Node.id node ≫= Node.height))
                (Node.height node)
    ∧ (Elk.x child, Elk.y child)
      = (if bool_decide (Node.id node ∈ manuallyMovedNodesSet s)
         then (Some (pos_x (Node.position node)), Some (pos_y (Node.position node)))
         else (None, None))
    ∧ nodes (handleAutoLayout s) = nodes s
    ∧ edges (handleAutoLayout s) = edges s
    ∧ cachedNodesMap (handleAutoLayout s) = cachedNodesMap s.
Proof.
  intros Hk. do 2 eexists. split; [apply handleAutoLayout_inFlight|].
  cbn [p_edges p_graph buildGraph Elk.children].
  split; [done|]. split; [by rewrite !length_fmap|].
  split; [by rewrite !list_lookup_fmap, Hk|].
  destruct (withCachedSize_frame (cachedNodesMap s) node) as (Hid & _ & _ & Hpos).
  cbn [buildChild Elk.node Elk.width Elk.height Elk.x Elk.y].
  rewrite Hid, Hpos. split; [done|].
  unfold withCachedSize, nullish, nullish_opt.
  split; [|split; [|split; [|done]]].
  - destruct (cachedNodesMap s !! Node.id node) as [cachedNode|]; cbn;
      by destruct (Node.width node).
  - destruct (cachedNodesMap s !! Node.id node) as [cachedNode|]; cbn;
      by destruct (Node.height node).
  - by destruct (bool_decide (Node.id node ∈ manuallyMovedNodesSet s)).
Qed.

Lemma auto_layout_request_witness :
  let unmeasuredB := Examples.nodeOf Examples.modelB 300 40 None None in
  let s := handleNodeDragStop unmeasuredB
             (setNodesEdges [Examples.nodeA; unmeasuredB] []
                (relayoutEffect Examples.rebuilt)) in
  ∃ p child,
    inFlight (handleAutoLayout s) = [p]
    ∧ Elk.children (p_graph p) !! 1%nat = Some child
    ∧ Elk.width child = 120 ∧ Elk.height child = 30
    ∧ (Elk.x child, Elk.y child) = (Some 300, Some 40).
Proof.
  intros unmeasuredB s.
  destruct (auto_layout_request s 1 unmeasuredB eq_refl)
    as (p & child & Hp & _ & _ & Hchild & _ & Hw & Hh & Hseed & _).
  exists p, child. split; [exact Hp|]. split; [exact Hchild|].
  split; [exact Hw|]. split; [exact Hh | exact Hseed].
Defined.
